(** * Deli client tracking and checkpoint manager

    A shallow embedding of two pieces of the ordering service:

    - [ClientSequenceNumberManager] (clientSeqManager.ts): the table of
      connected clients, ordered by reference sequence number through a
      binary heap whose nodes are shared with a [Map] from client id to node;
    - [createDeliCheckpointManagerFromCollection] (checkpointManager.ts): the
      two asynchronous methods that forward to the checkpoint service.

    JavaScript objects are mutable and shared, so the embedding keeps them in
    typed stores addressed by location; every method is a function in a
    state-and-error monad over these stores. Sequence numbers and timestamps
    are integers, taken in [Z]. *)

From Stdlib Require Import ZArith Lia ZifyNat.
From stdpp Require Import base option strings numbers list.

(* [lia] also decides goals with [k / 2], the parent of a heap slot. *)
Ltac Zify.zify_post_hook ::= Z.to_euclidean_division_equations.

Local Open Scope nat_scope.

(** ** JavaScript values of type [any] *)

(** Locations: the address of an object in its store. *)
Abbreviation loc := nat.

Inductive JsValue :=
| JUndefined
| JNull
| JBool (b : bool)
| JNumber (z : Z)
| JNaN
| JString (s : string)
| JObject (l : loc).

(** The condition of [if (v)]: every object is truthy; [undefined], [null],
    [false], [0], [NaN] and the empty string are not. *)
Definition truthy (v : JsValue) : bool :=
  match v with
  | JUndefined | JNull | JNaN => false
  | JBool b => b
  | JNumber z => negb (z =? 0)%Z
  | JString s => negb (String.eqb s "")
  | JObject _ => true
  end.

(** ** Objects *)

(** [IClientSequenceNumber], with the fields the object literals of
    clientSeqManager.ts give it. [scopes] is a reference to a [string[]];
    an absent [serverMetadata] reads as [undefined]. *)
Record IClientSequenceNumber := mkClient {
  canEvict : bool;
  clientId : option string;
  clientSequenceNumber : Z;
  lastUpdate : Z;
  nack : bool;
  referenceSequenceNumber : Z;
  scopes : loc;
  serverMetadata : JsValue;
}.

(** Modelled from the spec: [IHeapNode] of common-utils is not among the
    sources; a node is the handle the heap hands out for an entry: the entry
    ([value], a reference) and its current index in the heap array. *)
Record IHeapNode := mkNode {
  value : loc;
  position : nat;
}.

(** The stores and the two fields of a [ClientSequenceNumberManager]. *)
Record State := mkState {
  objs : list IClientSequenceNumber;   (* IClientSequenceNumber objects *)
  arrs : list (list string);           (* string[] objects *)
  nodes : list IHeapNode;              (* IHeapNode objects *)
  L : list loc;                        (* clientSeqNumbers.L, an array of nodes *)
  clientNodeMap : list (string * loc); (* Map<string, IHeapNode>, in insertion order *)
}.

Definition set_objs (f : list IClientSequenceNumber → list IClientSequenceNumber) (st : State) : State :=
  mkState (f (objs st)) (arrs st) (nodes st) (L st) (clientNodeMap st).
Definition set_arrs (f : list (list string) → list (list string)) (st : State) : State :=
  mkState (objs st) (f (arrs st)) (nodes st) (L st) (clientNodeMap st).
Definition set_nodes (f : list IHeapNode → list IHeapNode) (st : State) : State :=
  mkState (objs st) (arrs st) (f (nodes st)) (L st) (clientNodeMap st).
Definition set_L (f : list loc → list loc) (st : State) : State :=
  mkState (objs st) (arrs st) (nodes st) (f (L st)) (clientNodeMap st).
Definition set_clientNodeMap (f : list (string * loc) → list (string * loc)) (st : State) : State :=
  mkState (objs st) (arrs st) (nodes st) (L st) (f (clientNodeMap st)).

(** ** The monad: state passing, [None] for a thrown [TypeError] (a property
    read from [undefined]) or for a loop that ran out of fuel. *)

Definition M (A : Type) : Type := State → option (A * State).

Definition ret {A} (a : A) : M A := λ st, Some (a, st).
Definition fail {A} : M A := λ _, None.
Definition bind {A B} (m : M A) (k : A → M B) : M B :=
  λ st, match m st with
        | Some (a, st') => k a st'
        | None => None
        end.

Declare Scope tracker_scope.
Delimit Scope tracker_scope with tracker.
Notation "x <- m ;; k" := (bind m (λ x, k))
  (at level 20, m at level 99, k at level 200, only parsing) : tracker_scope.
Notation "m ;; k" := (bind m (λ _, k))
  (at level 100, k at level 200, only parsing, right associativity) : tracker_scope.
Local Open Scope tracker_scope.

Definition lift {A} (f : State → option A) : M A :=
  λ st, match f st with Some a => Some (a, st) | None => None end.
Definition modify (f : State → State) : M unit := λ st, Some (tt, f st).

(** Reads and writes of object fields. *)
Definition getObj (l : loc) : M IClientSequenceNumber := lift (λ st, objs st !! l).
Definition getNode (n : loc) : M IHeapNode := lift (λ st, nodes st !! n).
Definition modifyObj (l : loc) (f : IClientSequenceNumber → IClientSequenceNumber) : M unit :=
  o <- getObj l ;; modify (set_objs <[l := f o]>).
Definition setPosition (n : loc) (p : nat) : M unit :=
  nd <- getNode n ;; modify (set_nodes <[n := mkNode (value nd) p]>).

(** Allocation: a new object gets the next free location of its store. *)
Definition newObj (o : IClientSequenceNumber) : M loc :=
  λ st, Some (length (objs st), set_objs (λ os, os ++ [o]) st).
Definition newArray (xs : list string) : M loc :=
  λ st, Some (length (arrs st), set_arrs (λ a, a ++ [xs]) st).
Definition newNode (nd : IHeapNode) : M loc :=
  λ st, Some (length (nodes st), set_nodes (λ ns, ns ++ [nd]) st).

(** ** SequenceNumberComparer *)

Definition compare (a b : IClientSequenceNumber) : Z :=
  (referenceSequenceNumber a - referenceSequenceNumber b)%Z.

(** [SequenceNumberComparer.min]; its [scopes: []] is the array at location 0. *)
Definition comparer_min : IClientSequenceNumber :=
  mkClient true None 0 (-1) false (-1) 0 JUndefined.

(** ** Heap

    Modelled from the spec: the class [Heap] of common-utils is not among the
    sources. The spec describes an array-backed binary min-heap that hands out
    a handle per entry, keeps each handle's index current on every swap made
    while sifting up or down, updates an entry in place by sifting from its
    known index, and removes an entry by going to its index directly. The
    array is 1-based: index 0 holds a node for the comparer's [min], the
    sentinel the comparer in clientSeqManager.ts provides. *)
Module Heap.

Definition length_L : M nat := λ st, Some (length (L st), st).

(** [this.L[k]], read in order to use the node. *)
Definition at_ (k : nat) : M loc := lift (λ st, L st !! k).

(** [this.L[k] = n] for a slot of the array; a write past its end counts as
    an error. *)
Definition set_at (k : nat) (n : loc) : M unit :=
  _ <- at_ k ;; modify (set_L <[k := n]>).

(** [this.L[k].value], dereferenced. *)
Definition value_at (k : nat) : M IClientSequenceNumber :=
  n <- at_ k ;; nd <- getNode n ;; getObj (value nd).

(** [count()]: the array without its sentinel. *)
Definition count : M nat := λ st, Some (length (L st) - 1, st).

(** [peek()]: [this.L[1]], [undefined] on an empty heap. *)
Definition peek : M (option loc) := λ st, Some (L st !! 1, st).

(** [swap(k, j)]: exchange two slots and store each node's new index. *)
Definition swap (k j : nat) : M unit :=
  tmp <- at_ k ;;
  v <- at_ j ;;
  set_at k v ;;
  n1 <- at_ k ;;
  setPosition n1 k ;;
  set_at j tmp ;;
  n2 <- at_ j ;;
  setPosition n2 j.

(** [k > 1 && compare(L[k >> 1].value, L[k].value) > 0]: the entry at [k]
    is out of order with its parent. *)
Definition isGreaterThanParent (k : nat) : M bool :=
  if 1 <? k then
    p <- value_at (k / 2) ;;
    c <- value_at k ;;
    ret (0 <? compare p c)%Z
  else ret false.

(** Sift up: [while (isGreaterThanParent(k)) { swap(k, k >> 1); k = k >> 1 }]. *)
Fixpoint fixup_loop (fuel k : nat) : M unit :=
  match fuel with
  | 0 => fail
  | S fuel' =>
      b <- isGreaterThanParent k ;;
      if b : bool then swap k (k / 2) ;; fixup_loop fuel' (k / 2)
      else ret tt
  end.
Definition fixup (k : nat) : M unit := fixup_loop (S k) k.

(** Sift down: while [k] has a child, pick the smaller child [j]; stop when
    the entry at [k] is not above it, else swap and continue from [j]. *)
Fixpoint fixdown_loop (fuel k : nat) : M unit :=
  match fuel with
  | 0 => fail
  | S fuel' =>
      n <- count ;;
      if 2 * k <=? n then
        j <- (if 2 * k <? n then
                a <- value_at (2 * k) ;;
                b <- value_at (2 * k + 1) ;;
                ret (if (0 <? compare a b)%Z then 2 * k + 1 else 2 * k)
              else ret (2 * k)) ;;
        vk <- value_at k ;;
        vj <- value_at j ;;
        if (compare vk vj <=? 0)%Z then ret tt
        else swap k j ;; fixdown_loop fuel' j
      else ret tt
  end.
Definition fixdown (k : nat) : M unit :=
  n <- count ;; fixdown_loop (S n) k.

(** [add(x)]: a new node at the end of the array, sifted up. *)
Definition add (x : loc) : M loc :=
  len <- length_L ;;
  node <- newNode (mkNode x len) ;;
  modify (set_L (λ l, l ++ [node])) ;;
  c <- count ;;
  fixup c ;;
  ret node.

(** [update(node)]: after the entry of [node] changed, sift it up when it is
    out of order with its parent, down otherwise. *)
Definition update (node : loc) : M unit :=
  nd <- getNode node ;;
  b <- isGreaterThanParent (position nd) ;;
  if b : bool then fixup (position nd) else fixdown (position nd).

(** [remove(node)]: swap the node into the last slot, drop that slot, and
    re-establish the order for the node that took its place. *)
Definition remove (node : loc) : M unit :=
  nd <- getNode node ;;
  len <- length_L ;;
  swap (position nd) (len - 1) ;;
  modify (set_L (λ l, take (length l - 1) l)) ;;
  len' <- length_L ;;
  if decide (position nd ≠ len') then
    m <- at_ (position nd) ;; update m
  else ret tt.

End Heap.

(** ** Map<string, IHeapNode>: the operations of the built-in [Map] that the
    class uses. Entries keep their insertion order. *)
Module JsMap.

Fixpoint get (k : string) (m : list (string * loc)) : option loc :=
  match m with
  | [] => None
  | (k', v) :: m' => if decide (k' = k) then Some v else get k m'
  end.

Definition has (k : string) (m : list (string * loc)) : bool :=
  bool_decide (is_Some (get k m)).

(** [set]: an existing key keeps its place and takes the new value; a new
    key is appended. *)
Fixpoint set (k : string) (v : loc) (m : list (string * loc)) : list (string * loc) :=
  match m with
  | [] => [(k, v)]
  | (k', v') :: m' => if decide (k' = k) then (k, v) :: m' else (k', v') :: set k v m'
  end.

Fixpoint delete (k : string) (m : list (string * loc)) : list (string * loc) :=
  match m with
  | [] => []
  | (k', v') :: m' => if decide (k' = k) then m' else (k', v') :: delete k m'
  end.

Definition size (m : list (string * loc)) : nat := length m.

End JsMap.

(** ** ClientSequenceNumberManager *)

(** A new manager: the heap's constructor puts the sentinel node in slot 0. *)
Definition init_state : State :=
  mkState [comparer_min] [[]] [mkNode 0 0] [0] [].

Definition mapGet (clientId : string) : M (option loc) :=
  λ st, Some (JsMap.get clientId (clientNodeMap st), st).

Definition has (clientId : string) : M bool :=
  λ st, Some (JsMap.has clientId (clientNodeMap st), st).

(** [get]: a reference to the tracked object itself. *)
Definition get (clientId : string) : M (option loc) :=
  node <- mapGet clientId ;;
  match node with
  | None => ret None
  | Some n => nd <- getNode n ;; ret (Some (value nd))
  end.

Definition count : M nat := λ st, Some (JsMap.size (clientNodeMap st), st).

Definition peek : M (option loc) :=
  node <- Heap.peek ;;
  match node with
  | None => ret None
  | Some n => nd <- getNode n ;; ret (Some (value nd))
  end.

(** [cloneValues]: for every entry of the map, in order, a new object with
    the fields of the tracked one ([{ ...source }]). *)
Fixpoint cloneValues_loop (entries : list (string * loc)) (clients : list loc) : M (list loc) :=
  match entries with
  | [] => ret clients
  | (_, n) :: rest =>
      nd <- getNode n ;;
      source <- getObj (value nd) ;;
      c <- newObj source ;;
      cloneValues_loop rest (clients ++ [c])
  end.
Definition cloneValues : M (list loc) :=
  λ st, cloneValues_loop (clientNodeMap st) [] st.

Definition set_referenceSequenceNumber (x : Z) (o : IClientSequenceNumber) :=
  mkClient (canEvict o) (clientId o) (clientSequenceNumber o) (lastUpdate o) (nack o)
           x (scopes o) (serverMetadata o).
Definition set_clientSequenceNumber (x : Z) (o : IClientSequenceNumber) :=
  mkClient (canEvict o) (clientId o) x (lastUpdate o) (nack o)
           (referenceSequenceNumber o) (scopes o) (serverMetadata o).
Definition set_lastUpdate (x : Z) (o : IClientSequenceNumber) :=
  mkClient (canEvict o) (clientId o) (clientSequenceNumber o) x (nack o)
           (referenceSequenceNumber o) (scopes o) (serverMetadata o).
Definition set_nack (x : bool) (o : IClientSequenceNumber) :=
  mkClient (canEvict o) (clientId o) (clientSequenceNumber o) (lastUpdate o) x
           (referenceSequenceNumber o) (scopes o) (serverMetadata o).
Definition set_serverMetadata (x : JsValue) (o : IClientSequenceNumber) :=
  mkClient (canEvict o) (clientId o) (clientSequenceNumber o) (lastUpdate o) (nack o)
           (referenceSequenceNumber o) (scopes o) x.

(** [upsertClient]. The [scopes] argument is a reference to the caller's
    array, or [None] for an omitted argument, which the default parameter
    [scopes = []] replaces by a new empty array on entry. *)
Definition upsertClient (clientId : string) (clientSequenceNumber referenceSequenceNumber
    timestamp : Z) (canEvict : bool) (scopes : option loc) (nack : bool)
    (serverMetadata : JsValue) : M bool :=
  scopes <- match scopes with Some a => ret a | None => newArray [] end ;;
  client <- mapGet clientId ;;
  match client with
  | Some client =>
      nd <- getNode client ;;
      modifyObj (value nd) (set_referenceSequenceNumber referenceSequenceNumber) ;;
      modifyObj (value nd) (set_clientSequenceNumber clientSequenceNumber) ;;
      modifyObj (value nd) (set_lastUpdate timestamp) ;;
      modifyObj (value nd) (set_nack nack) ;;
      (if truthy serverMetadata
       then modifyObj (value nd) (set_serverMetadata serverMetadata)
       else ret tt) ;;
      Heap.update client ;;
      ret false
  | None =>
      o <- newObj (mkClient canEvict (Some clientId) clientSequenceNumber timestamp nack
                            referenceSequenceNumber scopes serverMetadata) ;;
      newNode <- Heap.add o ;;
      modify (set_clientNodeMap (JsMap.set clientId newNode)) ;;
      ret true
  end.

Definition removeClient (clientId : string) : M bool :=
  details <- mapGet clientId ;;
  match details with
  | None => ret false
  | Some details =>
      Heap.remove details ;;
      modify (set_clientNodeMap (JsMap.delete clientId)) ;;
      ret true
  end.

Definition getMinimumSequenceNumber : M Z :=
  c <- Heap.count ;;
  if 0 <? c then
    client <- Heap.peek ;;
    match client with
    | None => fail
    | Some n => nd <- getNode n ;; o <- getObj (value nd) ;; ret (referenceSequenceNumber o)
    end
  else ret (-1)%Z.

(** ** Sequences of calls *)

Inductive Op :=
| Upsert (clientId : string) (clientSequenceNumber referenceSequenceNumber timestamp : Z)
         (canEvict : bool) (scopes : option (list string)) (nack : bool)
         (serverMetadata : JsValue)
| Remove (clientId : string).

(** One call. A caller that passes scopes passes a new array literal. *)
Definition step (op : Op) : M bool :=
  match op with
  | Upsert id csn rsn ts ce sc nk md =>
      a <- match sc with
           | Some xs => l <- newArray xs ;; ret (Some l)
           | None => ret None
           end ;;
      upsertClient id csn rsn ts ce a nk md
  | Remove id => removeClient id
  end.

Fixpoint run (ops : list Op) (st : State) : option State :=
  match ops with
  | [] => Some st
  | op :: ops' =>
      match step op st with
      | Some (_, st') => run ops' st'
      | None => None
      end
  end.

(** The value a method returns. *)
Definition result {A} (m : M A) (st : State) : option A := fst <$> m st.

(** A call of [upsertClient] of which only the id and the reference sequence
    number matter. *)
Definition ups (id : string) (rsn : Z) : Op := Upsert id 0 rsn 0 true None false JUndefined.

(** What [getMinimumSequenceNumber()] returns after [ops] on a new manager. *)
Definition msn_after (ops : list Op) : option Z :=
  st ← run ops init_state; result getMinimumSequenceNumber st.

(** * The checkpoint manager (checkpointManager.ts) *)
Module CheckpointManager.

(** Modelled from the spec: the enum [CheckpointReason] of [../utils] is not
    among the sources; the spec names the triggers of a checkpoint: a routine
    batch boundary, an idle flush, a client disconnect, shutdown, manual. *)
Inductive CheckpointReason :=
| BatchBoundary
| IdleFlush
| ClientDisconnect
| Shutdown
| Manual.

(** How a promise ends: fulfilled, rejected, or never settled. *)
Inductive Promise (A : Type) :=
| Fulfilled (a : A)
| Rejected (e : JsValue)
| Pending.
Arguments Fulfilled {A} a.
Arguments Rejected {A} e.
Arguments Pending {A}.

(** How the evaluation of an expression ends: with a value or with a throw. *)
Inductive Completion (A : Type) :=
| Return (a : A)
| Throw (e : JsValue).
Arguments Return {A} a.
Arguments Throw {A} e.

Section Manager.

(** The interfaces of services-core that the file imports are parameters:
    the checkpoint payload, queued messages, the two repositories, and
    [World], the state of whatever stands behind the checkpoint service. *)
Context {IDeliState IQueuedMessage IDocumentRepository ICheckpointRepository World : Type}.

Record ICheckpointParams := mkParams {
  reason : CheckpointReason;
  deliState : IDeliState;
  deliCheckpointMessage : IQueuedMessage;
  kafkaCheckpointMessage : option IQueuedMessage;
  clear : option bool;
}.

(** The two methods of [ICheckpointService] that the manager calls, with
    their arguments. *)
Inductive ServiceCall :=
| writeCheckpointToCollection (documentId tenantId service : string)
    (checkpoint : IDeliState) (isLocal : bool)
| removeCheckpointFromCollection (documentId tenantId service : string) (isLocal : bool).

(** A checkpoint service: what each call does to the world, and whether it
    throws or returns a promise. *)
Definition ICheckpointService : Type :=
  ServiceCall → World → Completion (Promise JsValue) * World.

(** A run of a method: its result, the service calls it issued, in order,
    and the world it leaves. *)
Record Run (A : Type) := mkRun {
  outcome : A;
  issued : list ServiceCall;
  after : World;
}.
Arguments mkRun {A} outcome issued after.
Arguments outcome {A} r.
Arguments issued {A} r.
Arguments after {A} r.

Definition call (checkpointService : ICheckpointService) (c : ServiceCall) (w : World)
    : Run (Completion (Promise JsValue)) :=
  let '(r, w') := checkpointService c w in mkRun r [c] w'.

(** [async (...) => { return e }]: a throw of [e] rejects the promise of the
    function; a promise returned by [e] is adopted. *)
Definition async (body : World → Run (Completion (Promise JsValue))) (w : World)
    : Run (Promise JsValue) :=
  let r := body w in
  mkRun (match outcome r with
         | Throw e => Rejected e
         | Return p => p
         end) (issued r) (after r).

Record IDeliCheckpointManager := mkManager {
  writeCheckpoint : IDeliState → bool → CheckpointReason → World → Run (Promise JsValue);
  deleteCheckpoint : ICheckpointParams → bool → World → Run (Promise JsValue);
}.

(** The function of [writeCheckpoint] names two parameters, [checkpoint] and
    [isLocal]; the [reason] of the interface is given no name. *)
Definition createDeliCheckpointManagerFromCollection (tenantId documentId : string)
    (documentRepository : IDocumentRepository)
    (checkpointRepository : ICheckpointRepository)
    (checkpointService : ICheckpointService) : IDeliCheckpointManager :=
  {| writeCheckpoint := λ checkpoint isLocal _,
       async (call checkpointService
                (writeCheckpointToCollection documentId tenantId "deli" checkpoint isLocal));
     deleteCheckpoint := λ checkpointParams isLocal,
       async (call checkpointService
                (removeCheckpointFromCollection documentId tenantId "deli" isLocal)) |}.

(** The error with which a call fails, if it does: thrown, or the reason of
    the rejected promise it returned. *)
Definition failure (c : Completion (Promise JsValue)) : option JsValue :=
  match c with
  | Throw e => Some e
  | Return (Rejected e) => Some e
  | Return _ => None
  end.

Definition rejection (p : Promise JsValue) : option JsValue :=
  match p with
  | Rejected e => Some e
  | _ => None
  end.

End Manager.

Arguments mkRun {IDeliState World A} outcome issued after.
Arguments outcome {IDeliState World A} r.
Arguments issued {IDeliState World A} r.
Arguments after {IDeliState World A} r.

End CheckpointManager.

(** * Specification vocabulary

    The predicates and observations in which the properties below are
    stated: the order of the heap, the well-formedness of the stores, the
    invariant of the manager, and what a caller can see of a state. *)

(** ** The heap order, on the keys alone

    [r i] is the reference sequence number of the entry in slot [i] and [len]
    the length of the array. Slot [i]'s parent is [i / 2]; slot 0 is the
    sentinel and slot 1 the root. *)
Section KeyOrder.
Implicit Types (r : nat → Z) (len k j i : nat).

(** The slot whose entry a swap of [k] and [j] brings to slot [i]. *)
Definition transp k j i : nat :=
  if decide (i = k) then j else if decide (i = j) then k else i.

(** The keys after a swap of [k] and [j]. *)
Definition swapped r k j : nat → Z := λ i, r (transp k j i).

(** The heap order: no entry is below its parent. *)
Definition heap_ok len r : Prop :=
  ∀ i, 2 ≤ i → i < len → (r (i / 2)%nat ≤ r i)%Z.

(** The children of [k] are not below the parent of [k]. *)
Definition gp_ok len r k : Prop :=
  ∀ c, 2 ≤ k → c < len → c / 2 = k → (r (k / 2)%nat ≤ r c)%Z.

(** Ordered everywhere except, possibly, between [k] and its parent. *)
Definition up_inv len r k : Prop :=
  (∀ i, 2 ≤ i → i < len → i ≠ k → (r (i / 2)%nat ≤ r i)%Z) ∧ gp_ok len r k.

(** Ordered everywhere except, possibly, between [k] and its children. *)
Definition down_inv len r k : Prop :=
  (∀ i, 2 ≤ i → i < len → i / 2 ≠ k → (r (i / 2)%nat ≤ r i)%Z) ∧ gp_ok len r k.

(** Ordered everywhere except around [k], whose key was replaced. *)
Definition hole_inv len r k : Prop :=
  (∀ i, 2 ≤ i → i < len → i ≠ k → i / 2 ≠ k → (r (i / 2)%nat ≤ r i)%Z) ∧ gp_ok len r k.

(** [j] is the smaller child of [k], as [fixdown] selects it. *)
Definition smaller_child len r k j : Prop :=
  j < len ∧ j / 2 = k ∧ ∀ c, c < len → c / 2 = k → (r j ≤ r c)%Z.

End KeyOrder.

(** ** Reading the stores *)

(** [n.value], the reference a node holds. *)
Definition valOf (st : State) (n : loc) : option loc := value <$> nodes st !! n.

(** The entry a node carries. *)
Definition objOfNode (st : State) (n : loc) : option IClientSequenceNumber :=
  nd ← nodes st !! n; objs st !! value nd.

(** The entry in slot [k] of the heap. *)
Definition entryAt (st : State) (k : nat) : option IClientSequenceNumber :=
  n ← L st !! k; objOfNode st n.

(** The key in slot [k]. *)
Definition refAt (st : State) (k : nat) : Z :=
  from_option referenceSequenceNumber 0%Z (entryAt st k).

(** [n] is a node of the heap, the sentinel apart. *)
Definition inHeap (st : State) (n : loc) : Prop :=
  ∃ k, 1 ≤ k ∧ L st !! k = Some n.

(** ** Well-formed heaps: every slot holds a node that knows its index and
    carries an entry, and no entry is carried twice. *)
Record heap_wf (st : State) : Prop := {
  wf_nonempty : 0 < length (L st);
  wf_node : ∀ k n, L st !! k = Some n →
    ∃ nd, nodes st !! n = Some nd ∧ position nd = k ∧ is_Some (objs st !! value nd);
  wf_value_inj : ∀ k1 k2 n1 n2 v,
    L st !! k1 = Some n1 → L st !! k2 = Some n2 →
    valOf st n1 = Some v → valOf st n2 = Some v → k1 = k2;
}.

(** What the heap's own operations leave alone. *)
Record heap_frame (st st' : State) : Prop := {
  fr_objs : objs st' = objs st;
  fr_arrs : arrs st' = arrs st;
  fr_map : clientNodeMap st' = clientNodeMap st;
  fr_len : length (L st') = length (L st);
  fr_nodes : length (nodes st') = length (nodes st);
  fr_val : ∀ n, valOf st' n = valOf st n;
  fr_heap : ∀ n, inHeap st' n ↔ inHeap st n;
}.

(** The state a swap of slots [k] and [j] leaves: the two nodes exchanged in
    the array, each with its new index. *)
Definition swap_state (st : State) (k j : nat) (nk nj vk vj : loc) : State :=
  mkState (objs st) (arrs st)
          (<[nk := mkNode vk j]> (<[nj := mkNode vj k]> (nodes st)))
          (<[j := nk]> (<[k := nj]> (L st)))
          (clientNodeMap st).

(** The state on entry of [upsertClient]: an omitted [scopes] made the
    default parameter allocate an empty array. *)
Definition entered (sc : option loc) (st : State) : State :=
  match sc with
  | Some _ => st
  | None => set_arrs (λ a, a ++ [[]]) st
  end.

(** The array [scopes] is bound to on entry of [upsertClient]. *)
Definition entered_scopes (sc : option loc) (st : State) : loc :=
  match sc with
  | Some a => a
  | None => length (arrs st)
  end.

(** The assignments [upsertClient] makes to the entry of a known client. *)
Definition updated (rsn csn ts : Z) (nk : bool) (md : JsValue)
    (o : IClientSequenceNumber) : IClientSequenceNumber :=
  let o' := set_nack nk (set_lastUpdate ts (set_clientSequenceNumber csn
              (set_referenceSequenceNumber rsn o))) in
  if truthy md then set_serverMetadata md o' else o'.

(** ** The invariant of the manager

    The heap is well formed and ordered; the map has one entry per key; the
    map's nodes are exactly the heap's nodes (past the sentinel), and the
    entry a key leads to bears that key as its [clientId]. *)
Record Inv (st : State) : Prop := {
  inv_wf : heap_wf st;
  inv_ok : heap_ok (length (L st)) (refAt st);
  inv_keys : NoDup (clientNodeMap st).*1;
  inv_size : S (length (clientNodeMap st)) = length (L st);
  inv_map : ∀ id n, (id, n) ∈ clientNodeMap st →
    inHeap st n ∧ ∃ o, objOfNode st n = Some o ∧ clientId o = Some id;
  inv_heap : ∀ n, inHeap st n → ∃ id, (id, n) ∈ clientNodeMap st;
}.

(** ** What a caller observes *)

(** The clients currently tracked: the keys of the map, the ids for which
    [has] answers [true]. *)
Definition trackedIds (st : State) : list string := (clientNodeMap st).*1.

(** The object [get(clientId)] refers to. *)
Definition getValue (id : string) (st : State) : option IClientSequenceNumber :=
  match get id st with
  | Some (Some l, _) => objs st !! l
  | _ => None
  end.

(** The reference sequence numbers of the tracked clients. *)
Definition trackedRefs (st : State) : list Z :=
  omap (λ id, referenceSequenceNumber <$> getValue id st) (trackedIds st).

(** The client a call is about. *)
Definition op_clientId (op : Op) : string :=
  match op with
  | Upsert id _ _ _ _ _ _ _ => id
  | Remove id => id
  end.

(** The calls of [upsertClient]. *)
Definition is_upsert (op : Op) : bool :=
  match op with
  | Upsert _ _ _ _ _ _ _ _ => true
  | Remove _ => false
  end.

(** The argument and the state with which [step] enters [upsertClient]. *)
Definition passed (sc : option (list string)) (st : State) : option loc * State :=
  match sc with
  | Some xs => (Some (length (arrs st)), set_arrs (λ a, a ++ [xs]) st)
  | None => (None, st)
  end.

(** The contents of the array a tracked client's [scopes] refers to. *)
Definition getScopes (id : string) (st : State) : option (list string) :=
  o ← getValue id st; arrs st !! scopes o.

(** C9 as the spec states it: after a call for a tracked client, the
    stored scopes are those passed in that call. *)
Definition scopes_follow_last_call : Prop :=
  ∀ ops st id csn rsn ts ce xs nk md r st',
    run ops init_state = Some st →
    result (has id) st = Some true →
    step (Upsert id csn rsn ts ce (Some xs) nk md) st = Some (r, st') →
    getScopes id st' = Some xs.

(** Every tracked entry's [scopes] refers to an array that exists. *)
Definition scopes_allocated (st : State) : Prop :=
  ∀ id o, getValue id st = Some o → scopes o < length (arrs st).

(** References to objects allocated by the time of [st] show the same in
    [st'], and the manager's own fields are the same. *)
Record same_inside (st st' : State) : Prop := {
  si_nodes : nodes st' = nodes st;
  si_L : L st' = L st;
  si_map : clientNodeMap st' = clientNodeMap st;
  si_arrs : arrs st' = arrs st;
  si_objs : ∀ l, l < length (objs st) → objs st' !! l = objs st !! l;
}.

(** What a caller does with the array [cloneValues] returned. [ElemAssign]
    and [ElemScopesPush] go through the [i]-th object of the array as it was
    returned. *)
Inductive Mutation :=
| SeqStore (i : nat) (l : loc)                       (* clones[i] = l *)
| SeqPush (l : loc)                                  (* clones.push(l) *)
| SeqPop                                             (* clones.pop() *)
| ElemAssign (i : nat) (o : IClientSequenceNumber)   (* Object.assign(c, o) *)
| ElemScopesPush (i : nat) (s : string).             (* c.scopes.push(s) *)

(** One mutation, on the caller's array and the stores. *)
Definition mutate (returned : list loc) (m : Mutation) (x : list loc * State)
    : option (list loc * State) :=
  match m with
  | SeqStore i l => Some (<[i := l]> x.1, x.2)
  | SeqPush l => Some (x.1 ++ [l], x.2)
  | SeqPop => Some (take (length x.1 - 1) x.1, x.2)
  | ElemAssign i o =>
      c ← returned !! i;
      _ ← objs x.2 !! c;
      Some (x.1, set_objs <[c := o]> x.2)
  | ElemScopesPush i s =>
      c ← returned !! i;
      o ← objs x.2 !! c;
      xs ← arrs x.2 !! scopes o;
      Some (x.1, set_arrs <[scopes o := xs ++ [s]]> x.2)
  end.

(** A sequence of mutations, in order. *)
Fixpoint mutate_all (returned : list loc) (ms : list Mutation) (x : list loc * State)
    : option (list loc * State) :=
  match ms with
  | [] => Some x
  | m :: ms' =>
      match mutate returned m x with
      | Some x' => mutate_all returned ms' x'
      | None => None
      end
  end.

(** Mutations of the array and of the fields of its objects, as opposed to
    mutations inside an array that a field refers to. *)
Definition shallow (m : Mutation) : bool :=
  match m with
  | ElemScopesPush _ _ => false
  | _ => true
  end.

(** What a reference shows: the object's fields and the contents of its
    [scopes]. *)
Definition view (st : State) (l : loc)
    : option (IClientSequenceNumber * option (list string)) :=
  o ← objs st !! l; Some (o, arrs st !! scopes o).

(** The result of [get] or [peek]: the reference and what it shows. *)
Definition observe (m : M (option loc)) (st : State) :=
  r ← result m st; Some (r, r ≫= view st).

(** C8 as the spec states it: whatever the caller does to the returned
    array and to its elements, [get], [peek] and
    [getMinimumSequenceNumber] answer as before the call. *)
Definition cloneValues_isolated : Prop :=
  ∀ ops st clones st1 ms sq st2,
    run ops init_state = Some st →
    cloneValues st = Some (clones, st1) →
    mutate_all clones ms (clones, st1) = Some (sq, st2) →
    (∀ id, observe (get id) st2 = observe (get id) st) ∧
    observe peek st2 = observe peek st ∧
    result getMinimumSequenceNumber st2 = result getMinimumSequenceNumber st.

(** ** The checkpoint manager *)

Import CheckpointManager.

(** C6 as the spec states it: the storage call carries every argument of
    [writeCheckpoint], so that two runs with the same calls had the same
    arguments. *)
Definition writeCheckpoint_forwards_everything : Prop :=
  ∀ (IDeliState IDocumentRepository ICheckpointRepository World : Type)
    (tenantId documentId : string) (dr : IDocumentRepository) (cr : ICheckpointRepository)
    (svc : @ICheckpointService IDeliState World)
    (c1 c2 : IDeliState) (l1 l2 : bool) (r1 r2 : CheckpointReason) (w : World),
    let manager :=
      createDeliCheckpointManagerFromCollection (IQueuedMessage := unit)
        tenantId documentId dr cr svc in
    issued (writeCheckpoint manager c1 l1 r1 w) = issued (writeCheckpoint manager c2 l2 r2 w) →
    c1 = c2 ∧ l1 = l2 ∧ r1 = r2.

(** ** The manager as a table

    What the manager holds, told without heap, map or stores: the clients in
    the order in which they were inserted, each with the fields of its entry
    and the contents of its scopes. *)
Record Entry := mkEntry {
  entry_canEvict : bool;
  entry_clientSequenceNumber : Z;
  entry_lastUpdate : Z;
  entry_nack : bool;
  entry_referenceSequenceNumber : Z;
  entry_scopes : list string;
  entry_serverMetadata : JsValue;
}.

(** The update branch of [upsertClient], on a row. *)
Definition entry_updated (csn rsn ts : Z) (nk : bool) (md : JsValue) (e : Entry) : Entry :=
  mkEntry (entry_canEvict e) csn ts nk rsn (entry_scopes e)
          (if truthy md then md else entry_serverMetadata e).

(** One call, on the table: an upsert of a known id rewrites its row in
    place, an upsert of a new id adds a row at the end, a removal drops the
    row. *)
Definition table_step (op : Op) (t : list (string * Entry)) : list (string * Entry) :=
  match op with
  | Upsert id csn rsn ts ce sc nk md =>
      if bool_decide (id ∈ t.*1) then
        (λ row, if decide (row.1 = id)
                then (row.1, entry_updated csn rsn ts nk md row.2)
                else row) <$> t
      else t ++ [(id, mkEntry ce csn ts nk rsn (default [] sc) md)]
  | Remove id => filter (λ row, row.1 ≠ id) t
  end.

Definition table_of (ops : list Op) : list (string * Entry) :=
  foldl (λ t op, table_step op t) [] ops.

(** The row of a tracked object, given the contents of its scopes. *)
Definition entry_of (o : IClientSequenceNumber) (xs : list string) : Entry :=
  mkEntry (canEvict o) (clientSequenceNumber o) (lastUpdate o) (nack o)
          (referenceSequenceNumber o) xs (serverMetadata o).

(** The row of client [id], read through [get]. *)
Definition snapshot_entry (st : State) (id : string) : option (string * Entry) :=
  o ← getValue id st; xs ← arrs st !! scopes o; Some (id, entry_of o xs).

(** The table a state shows: the rows of the tracked clients, in the order
    of the map. *)
Definition snapshot (st : State) : list (string * Entry) :=
  omap (snapshot_entry st) (trackedIds st).

(** * Proofs *)

(** The first scenario of the spec: A at 5, B at 2 and C at 9 join, B moves
    to 12, A leaves, C leaves. B, at 12, is then the one client left; the
    minimum is [-1] once B has left too. *)
Example scenario_msn :
  msn_after [ups "A" 5; ups "B" 2; ups "C" 9] = Some 2%Z ∧
  msn_after [ups "A" 5; ups "B" 2; ups "C" 9; ups "B" 12] = Some 5%Z ∧
  msn_after [ups "A" 5; ups "B" 2; ups "C" 9; ups "B" 12; Remove "A"] = Some 9%Z ∧
  msn_after [ups "A" 5; ups "B" 2; ups "C" 9; ups "B" 12; Remove "A"; Remove "C"]
  = Some 12%Z ∧
  msn_after [ups "A" 5; ups "B" 2; ups "C" 9; ups "B" 12; Remove "A"; Remove "C";
             Remove "B"] = Some (-1)%Z.
Proof. vm_compute. repeat split. Qed.

(** ** The heap order, on the keys alone *)

(* Equal slots have equal keys: hands [lia] the instances of congruence. *)
Ltac key_cong r :=
  repeat match goal with
  | E : @eq nat ?a ?b |- _ =>
      lazymatch goal with
      | _ : r a = r b |- _ => fail
      | _ => pose proof (f_equal r E)
      end
  end.

Section HeapOrder.
Implicit Types (r : nat → Z) (len k j i : nat).

Lemma heap_ok_ext len r r' :
  (∀ i, i < len → r' i = r i) → heap_ok len r → heap_ok len r'.
Proof.
  intros E H i Hi Hl. rewrite !E by lia.
  by apply H.
Qed.

Lemma up_inv_ext len r r' k :
  (∀ i, i < len → r' i = r i) → up_inv len r k → up_inv len r' k.
Proof.
  intros E [H G]. split.
  - intros i ? ? ?. rewrite !E by lia. by apply H.
  - intros c ? ? ?. rewrite !E by lia. by apply G.
Qed.

Lemma down_inv_ext len r r' k :
  (∀ i, i < len → r' i = r i) → down_inv len r k → down_inv len r' k.
Proof.
  intros E [H G]. split.
  - intros i ? ? ?. rewrite !E by lia. by apply H.
  - intros c ? ? ?. rewrite !E by lia. by apply G.
Qed.

Lemma hole_up len r k :
  hole_inv len r k → 1 < k → (r k < r (k / 2)%nat)%Z → up_inv len r k.
Proof.
  intros [H G] Hk Hlt. split; [|done].
  intros i ? ? ?. destruct (decide (i / 2 = k)) as [E|NE].
  - specialize (G i). rewrite E. lia.
  - by apply H.
Qed.

Lemma hole_down len r k :
  hole_inv len r k → (k ≤ 1 ∨ (r (k / 2)%nat ≤ r k)%Z) → down_inv len r k.
Proof.
  intros [H G] Hk. split; [|done].
  intros i ? ? ?. destruct (decide (i = k)) as [->|NE].
  - lia.
  - by apply H.
Qed.

Lemma up_done len r k :
  up_inv len r k → (k ≤ 1 ∨ (r (k / 2)%nat ≤ r k)%Z) → heap_ok len r.
Proof.
  intros [H G] Hk i ? ?. destruct (decide (i = k)) as [->|NE]; [lia|]. by apply H.
Qed.

Lemma up_step len r k :
  up_inv len r k → 1 < k → k < len → (r k < r (k / 2)%nat)%Z →
  up_inv len (swapped r k (k / 2)) (k / 2).
Proof.
  intros [H G] Hk Hl Hlt. split.
  - intros i ? ? NE. unfold swapped, transp.
    pose proof (H i). pose proof (G i). pose proof (H (i / 2)).
    repeat case_decide; subst; key_cong r; lia.
  - intros c ? ? E. unfold swapped, transp.
    pose proof (H c). pose proof (H (k / 2)).
    repeat case_decide; subst; key_cong r; lia.
Qed.

Lemma down_done_leaf len r k : down_inv len r k → len ≤ 2 * k → heap_ok len r.
Proof. intros [H G] Hk i ? ?. apply H; lia. Qed.

Lemma down_done_le len r k j :
  down_inv len r k → smaller_child len r k j → (r k ≤ r j)%Z → heap_ok len r.
Proof.
  intros [H G] (? & ? & Hm) Hle i ? ?. destruct (decide (i / 2 = k)) as [E|NE].
  - rewrite E. specialize (Hm i). lia.
  - by apply H.
Qed.

Lemma down_step len r k j :
  down_inv len r k → 1 ≤ k → smaller_child len r k j → (r j < r k)%Z →
  down_inv len (swapped r k j) j.
Proof.
  intros [H G] Hk (? & ? & Hm) Hlt. split.
  - intros i ? ? NE. unfold swapped, transp.
    pose proof (H i). pose proof (G j). pose proof (Hm i).
    repeat case_decide; subst; key_cong r; lia.
  - intros c ? ? E. unfold swapped, transp.
    pose proof (H c).
    repeat case_decide; subst; key_cong r; lia.
Qed.

(** In an ordered heap the root is a lower bound. *)
Lemma heap_ok_root len r i : heap_ok len r → 1 ≤ i → i < len → (r 1%nat ≤ r i)%Z.
Proof.
  intros H. induction i as [i IH] using lt_wf_ind. intros ? ?.
  destruct (decide (i = 1)) as [->|]; [lia|].
  assert (r 1%nat ≤ r (i / 2)%nat)%Z by (apply IH; lia).
  specialize (H i). lia.
Qed.
End HeapOrder.

(** ** Well-formed heaps *)

Lemma heap_frame_refl st : heap_frame st st.
Proof. by split. Qed.

Lemma heap_frame_trans st1 st2 st3 :
  heap_frame st1 st2 → heap_frame st2 st3 → heap_frame st1 st3.
Proof.
  intros [] []. split; try congruence; intros n; etrans; eauto.
Qed.

Lemma wf_slot_inj st k1 k2 n :
  heap_wf st → L st !! k1 = Some n → L st !! k2 = Some n → k1 = k2.
Proof.
  intros W H1 H2.
  destruct (wf_node _ W _ _ H1) as (nd1 & E1 & P1 & _).
  destruct (wf_node _ W _ _ H2) as (nd2 & E2 & P2 & _).
  congruence.
Qed.

Lemma wf_entry st k :
  heap_wf st → k < length (L st) →
  ∃ n nd o, L st !! k = Some n ∧ nodes st !! n = Some nd ∧ position nd = k ∧
            objs st !! value nd = Some o ∧ entryAt st k = Some o ∧
            refAt st k = referenceSequenceNumber o.
Proof.
  intros W Hk. destruct (lookup_lt_is_Some_2 _ _ Hk) as [n Hn].
  destruct (wf_node _ W _ _ Hn) as (nd & E & P & [o Ho]).
  exists n, nd, o. unfold refAt, entryAt, objOfNode. rewrite Hn. simpl. rewrite E. simpl.
  by rewrite Ho.
Qed.

(** ** The heap's operations on a well-formed heap *)

Lemma at_spec st k n : L st !! k = Some n → Heap.at_ k st = Some (n, st).
Proof. intros H. unfold Heap.at_, lift. by rewrite H. Qed.

Lemma getNode_spec st n nd : nodes st !! n = Some nd → getNode n st = Some (nd, st).
Proof. intros H. unfold getNode, lift. by rewrite H. Qed.

Lemma getObj_spec st l o : objs st !! l = Some o → getObj l st = Some (o, st).
Proof. intros H. unfold getObj, lift. by rewrite H. Qed.

Lemma value_at_spec st k :
  heap_wf st → k < length (L st) →
  ∃ o, Heap.value_at k st = Some (o, st) ∧ referenceSequenceNumber o = refAt st k.
Proof.
  intros W Hk. destruct (wf_entry _ _ W Hk) as (n & nd & o & Hn & Hnd & _ & Ho & _ & R).
  exists o. split; [|done]. unfold Heap.value_at, bind.
  rewrite (at_spec _ _ _ Hn), (getNode_spec _ _ _ Hnd). by apply getObj_spec.
Qed.

Lemma isGreaterThanParent_spec st k :
  heap_wf st → k < length (L st) →
  Heap.isGreaterThanParent k st
  = Some (bool_decide (1 < k ∧ (refAt st k < refAt st (k / 2))%Z), st).
Proof.
  intros W Hk. unfold Heap.isGreaterThanParent.
  destruct (1 <? k) eqn:E.
  - apply Nat.ltb_lt in E.
    destruct (value_at_spec st (k / 2) W) as (p & Hp & Rp); [lia|].
    destruct (value_at_spec st k W Hk) as (c & Hc & Rc).
    unfold bind, ret. rewrite Hp, Hc. do 2 f_equal. unfold compare.
    rewrite Rp, Rc. destruct (Z.ltb_spec 0 (refAt st (k / 2) - refAt st k));
      [rewrite bool_decide_eq_true_2 | rewrite bool_decide_eq_false_2]; auto; lia.
  - apply Nat.ltb_ge in E. unfold ret. do 2 f_equal.
    rewrite bool_decide_eq_false_2; auto; lia.
Qed.

Lemma swap_eq st k j nk nj ndk ndj :
  L st !! k = Some nk → L st !! j = Some nj →
  nodes st !! nk = Some ndk → nodes st !! nj = Some ndj →
  Heap.swap k j st = Some (tt, swap_state st k j nk nj (value ndk) (value ndj)).
Proof.
  intros Hk Hj Hnk Hnj.
  assert (k < length (L st)) by eauto using lookup_lt_Some.
  assert (j < length (L st)) by eauto using lookup_lt_Some.
  assert (nk < length (nodes st)) by eauto using lookup_lt_Some.
  assert (nj < length (nodes st)) by eauto using lookup_lt_Some.
  unfold Heap.swap, bind.
  rewrite (at_spec _ _ _ Hk), (at_spec _ _ _ Hj).
  unfold Heap.set_at at 1. unfold bind. rewrite (at_spec _ _ _ Hk). unfold modify at 1.
  rewrite (at_spec _ k nj) by (simpl; by rewrite list_lookup_insert_eq).
  unfold setPosition at 1. unfold bind.
  rewrite (getNode_spec _ nj ndj) by done. unfold modify at 1.
  assert (∃ x, <[k:=nj]> (L st) !! j = Some x) as [x Hx].
  { apply lookup_lt_is_Some_2. by rewrite length_insert. }
  unfold Heap.set_at. unfold bind. rewrite (at_spec _ j x) by done. unfold modify at 1.
  rewrite (at_spec _ j nk) by (simpl; rewrite list_lookup_insert_eq; [done|by rewrite length_insert]).
  unfold setPosition, bind.
  assert (∃ nd, <[nj:=mkNode (value ndj) k]> (nodes st) !! nk = Some nd ∧ value nd = value ndk)
    as (nd & Hnd & Hv).
  { destruct (decide (nk = nj)) as [->|NE].
    - eexists. rewrite list_lookup_insert_eq by done. split; [done|]. simpl. congruence.
    - exists ndk. by rewrite list_lookup_insert_ne. }
  rewrite (getNode_spec _ nk nd) by done. unfold modify. simpl. by rewrite Hv.
Qed.

Lemma swap_state_L st k j nk nj vk vj i :
  L st !! k = Some nk → L st !! j = Some nj →
  L (swap_state st k j nk nj vk vj) !! i = L st !! transp k j i.
Proof.
  intros Hk Hj. simpl. unfold transp.
  assert (k < length (L st)) by eauto using lookup_lt_Some.
  assert (j < length (L st)) by eauto using lookup_lt_Some.
  destruct (decide (i = j)) as [->|NEj].
  - rewrite list_lookup_insert_eq by (by rewrite length_insert).
    case_decide; by subst.
  - rewrite list_lookup_insert_ne by done.
    destruct (decide (i = k)) as [->|NEk].
    + by rewrite list_lookup_insert_eq.
    + by rewrite list_lookup_insert_ne.
Qed.

Lemma transp_invol k j i : transp k j (transp k j i) = i.
Proof. unfold transp. repeat case_decide; congruence. Qed.

Lemma transp_pos k j i : 1 ≤ k → 1 ≤ j → 1 ≤ i → 1 ≤ transp k j i.
Proof. unfold transp. repeat case_decide; lia. Qed.

Lemma swap_state_node st k j nk nj ndk ndj i n :
  heap_wf st →
  L st !! k = Some nk → L st !! j = Some nj →
  nodes st !! nk = Some ndk → nodes st !! nj = Some ndj →
  L st !! transp k j i = Some n →
  ∃ nd nd', nodes st !! n = Some nd ∧
    nodes (swap_state st k j nk nj (value ndk) (value ndj)) !! n = Some nd' ∧
    value nd' = value nd ∧ position nd' = i.
Proof.
  intros W Hk Hj Hnk Hnj Hi.
  assert (nk < length (nodes st)) by eauto using lookup_lt_Some.
  assert (nj < length (nodes st)) by eauto using lookup_lt_Some.
  destruct (wf_node _ W _ _ Hi) as (nd & Hnd & P & _).
  exists nd. simpl. unfold transp in Hi, P.
  destruct (decide (i = k)) as [->|NEk].
  - assert (n = nj) as -> by congruence. assert (nd = ndj) as -> by congruence.
    destruct (decide (nk = nj)) as [->|NE].
    + assert (k = j) as -> by eauto using wf_slot_inj.
      eexists. rewrite list_lookup_insert_eq by (by rewrite length_insert).
      split; [done|]. split; [done|]. simpl. split; [congruence|done].
    + eexists. rewrite list_lookup_insert_ne, list_lookup_insert_eq by done. done.
  - destruct (decide (i = j)) as [->|NEj].
    + assert (n = nk) as -> by congruence. assert (nd = ndk) as -> by congruence.
      eexists. rewrite list_lookup_insert_eq by (by rewrite length_insert). done.
    + assert (n ≠ nk) by (intros ->; apply NEk; eauto using wf_slot_inj).
      assert (n ≠ nj) by (intros ->; apply NEj; eauto using wf_slot_inj).
      exists nd. rewrite !list_lookup_insert_ne by done. done.
Qed.

Lemma swap_state_val st k j nk nj ndk ndj n :
  nodes st !! nk = Some ndk → nodes st !! nj = Some ndj →
  valOf (swap_state st k j nk nj (value ndk) (value ndj)) n = valOf st n.
Proof.
  intros Hnk Hnj. unfold valOf. simpl.
  assert (nk < length (nodes st)) by eauto using lookup_lt_Some.
  assert (nj < length (nodes st)) by eauto using lookup_lt_Some.
  destruct (decide (n = nk)) as [->|NEk].
  - rewrite list_lookup_insert_eq by (by rewrite length_insert). by rewrite Hnk.
  - rewrite list_lookup_insert_ne by done.
    destruct (decide (n = nj)) as [->|NEj].
    + rewrite list_lookup_insert_eq by done. by rewrite Hnj.
    + by rewrite list_lookup_insert_ne.
Qed.

Lemma objOfNode_val st n : objOfNode st n = (v ← valOf st n; objs st !! v).
Proof. unfold objOfNode, valOf. by destruct (nodes st !! n). Qed.

Lemma objOfNode_frame st st' n :
  objs st' = objs st → valOf st' n = valOf st n → objOfNode st' n = objOfNode st n.
Proof. intros E1 E2. by rewrite !objOfNode_val, E1, E2. Qed.

Lemma swap_spec st k j :
  heap_wf st → 1 ≤ k → 1 ≤ j → k < length (L st) → j < length (L st) →
  ∃ st', Heap.swap k j st = Some (tt, st') ∧ heap_wf st' ∧ heap_frame st st' ∧
         (∀ i, L st' !! i = L st !! transp k j i) ∧
         (∀ i, refAt st' i = swapped (refAt st) k j i).
Proof.
  intros W Pk Pj Hk Hj.
  destruct (wf_entry _ _ W Hk) as (nk & ndk & ok & Lk & Nk & _).
  destruct (wf_entry _ _ W Hj) as (nj & ndj & oj & Lj & Nj & _).
  eexists. split; [by apply (swap_eq st k j nk nj ndk ndj)|].
  set (st' := swap_state st k j nk nj (value ndk) (value ndj)).
  assert (∀ i, L st' !! i = L st !! transp k j i) as HL
    by (intros i; by apply swap_state_L).
  assert (∀ n, valOf st' n = valOf st n) as HV
    by (intros n; by apply swap_state_val).
  split; [|split; [|split; [done|]]].
  - split.
    + simpl. rewrite !length_insert. by destruct W.
    + intros i n Hi. rewrite HL in Hi.
      destruct (swap_state_node st k j nk nj ndk ndj i n W Lk Lj Nk Nj Hi)
        as (nd & nd' & E & E' & Ev & Ep).
      exists nd'. split; [done|]. split; [done|]. rewrite Ev.
      destruct (wf_node _ W _ _ Hi) as (nd0 & E0 & _ & S). by replace nd with nd0 by congruence.
    + intros k1 k2 n1 n2 v H1 H2 V1 V2. rewrite HL in H1, H2. rewrite HV in V1, V2.
      assert (transp k j k1 = transp k j k2) as E by eauto using wf_value_inj.
      by rewrite <-(transp_invol k j k1), E, transp_invol.
  - split; try done.
    + simpl. by rewrite !length_insert.
    + simpl. by rewrite !length_insert.
    + intros n. split; intros (i & Pi & Hi).
      * exists (transp k j i). split; [by apply transp_pos|]. by rewrite <-HL.
      * exists (transp k j i). split; [by apply transp_pos|]. by rewrite HL, transp_invol.
  - intros i. unfold swapped, refAt, entryAt. rewrite HL.
    destruct (L st !! transp k j i) as [n|]; [|done]. simpl.
    by rewrite (objOfNode_frame st st').
Qed.

Lemma fixup_loop_S fuel k :
  Heap.fixup_loop (S fuel) k
  = (b <- Heap.isGreaterThanParent k ;;
     if b : bool then Heap.swap k (k / 2) ;; Heap.fixup_loop fuel (k / 2) else ret tt).
Proof. reflexivity. Qed.

Lemma fixdown_loop_S fuel k :
  Heap.fixdown_loop (S fuel) k
  = (n <- Heap.count ;;
     if 2 * k <=? n then
       j <- (if 2 * k <? n then
               a <- Heap.value_at (2 * k) ;;
               b <- Heap.value_at (2 * k + 1) ;;
               ret (if (0 <? compare a b)%Z then 2 * k + 1 else 2 * k)
             else ret (2 * k)) ;;
       vk <- Heap.value_at k ;;
       vj <- Heap.value_at j ;;
       if (compare vk vj <=? 0)%Z then ret tt
       else Heap.swap k j ;; Heap.fixdown_loop fuel j
     else ret tt).
Proof. reflexivity. Qed.

Lemma fixup_loop_spec fuel : ∀ k st,
  heap_wf st → 1 ≤ k → k < length (L st) → k < fuel →
  up_inv (length (L st)) (refAt st) k →
  ∃ st', Heap.fixup_loop fuel k st = Some (tt, st') ∧ heap_wf st' ∧ heap_frame st st' ∧
         heap_ok (length (L st')) (refAt st').
Proof.
  induction fuel as [|fuel IH]; intros k st W Pk Hk Hf U; [lia|].
  rewrite fixup_loop_S. unfold bind. rewrite isGreaterThanParent_spec by done.
  case_bool_decide as Hgt.
  - destruct Hgt as [Hk1 Hlt].
    destruct (swap_spec st k (k / 2) W) as (st1 & -> & W1 & F1 & _ & R1); [lia..|].
    destruct (IH (k / 2) st1) as (st2 & -> & W2 & F2 & O2); [done|lia| |lia| |].
    + rewrite (fr_len _ _ F1). lia.
    + rewrite (fr_len _ _ F1). eapply up_inv_ext; [intros; apply R1|]. by apply up_step.
    + exists st2. eauto using heap_frame_trans.
  - exists st. split; [done|]. split; [done|]. split; [apply heap_frame_refl|].
    eapply up_done; [done|].
    destruct (decide (k ≤ 1)); [by left|right].
    destruct (Z.le_gt_cases (refAt st (k / 2)) (refAt st k)); [done|].
    exfalso. apply Hgt. split; lia.
Qed.

Lemma fixdown_loop_spec fuel : ∀ k st,
  heap_wf st → 1 ≤ k → k < length (L st) → length (L st) < k + fuel →
  down_inv (length (L st)) (refAt st) k →
  ∃ st', Heap.fixdown_loop fuel k st = Some (tt, st') ∧ heap_wf st' ∧ heap_frame st st' ∧
         heap_ok (length (L st')) (refAt st').
Proof.
  induction fuel as [|fuel IH]; intros k st W Pk Hk Hf D; [lia|].
  rewrite fixdown_loop_S. unfold bind at 1. unfold Heap.count at 1.
  destruct (Nat.leb_spec (2 * k) (length (L st) - 1)) as [Hc|Hc]; cycle 1.
  { exists st. split; [done|]. split; [done|]. split; [apply heap_frame_refl|].
    eapply down_done_leaf; [done|lia]. }
  (* the smaller child *)
  assert (∃ j, (if 2 * k <? length (L st) - 1
                then a <- Heap.value_at (2 * k) ;;
                     b <- Heap.value_at (2 * k + 1) ;;
                     ret (if (0 <? compare a b)%Z then 2 * k + 1 else 2 * k)
                else ret (2 * k)) st = Some (j, st)
               ∧ smaller_child (length (L st)) (refAt st) k j) as (j & Ej & Sj).
  { destruct (Nat.ltb_spec (2 * k) (length (L st) - 1)) as [Hr|Hr].
    - destruct (value_at_spec st (2 * k) W) as (a & Ha & Ra); [lia|].
      destruct (value_at_spec st (2 * k + 1) W) as (b & Hb & Rb); [lia|].
      unfold bind. rewrite Ha, Hb. unfold compare. rewrite Ra, Rb.
      eexists. split; [done|].
      destruct (Z.ltb_spec 0 (refAt st (2 * k) - refAt st (2 * k + 1))).
      + split; [lia|]. split; [lia|]. intros c ? ?.
        assert (c = 2 * k ∨ c = 2 * k + 1) as [->| ->] by lia; lia.
      + split; [lia|]. split; [lia|]. intros c ? ?.
        assert (c = 2 * k ∨ c = 2 * k + 1) as [->| ->] by lia; lia.
    - eexists. split; [done|].
      split; [lia|]. split; [lia|]. intros c ? ?.
      assert (c = 2 * k) as -> by lia. lia. }
  unfold bind at 1. rewrite Ej.
  destruct Sj as (Hj & Hjk & Hmin).
  destruct (value_at_spec st k W Hk) as (vk & Hvk & Rk).
  destruct (value_at_spec st j W Hj) as (vj & Hvj & Rj).
  unfold bind at 1. rewrite Hvk. unfold bind at 1. rewrite Hvj.
  unfold compare. rewrite Rk, Rj.
  destruct (Z.leb_spec (refAt st k - refAt st j) 0) as [Hle|Hgt].
  - exists st. split; [done|]. split; [done|]. split; [apply heap_frame_refl|].
    eapply (down_done_le _ _ k j); [done| |lia]. by repeat split.
  - unfold bind.
    destruct (swap_spec st k j W) as (st1 & -> & W1 & F1 & _ & R1); [lia..|].
    destruct (IH j st1) as (st2 & -> & W2 & F2 & O2); [done|lia| | | |].
    + rewrite (fr_len _ _ F1). lia.
    + rewrite (fr_len _ _ F1). lia.
    + rewrite (fr_len _ _ F1). eapply down_inv_ext; [intros; apply R1|].
      apply down_step; [done|done| |lia]. by repeat split.
    + exists st2. eauto using heap_frame_trans.
Qed.

Lemma hole_inv_replace len len' r r' k :
  heap_ok len r → len' ≤ len → (∀ i, i < len' → i ≠ k → r' i = r i) →
  hole_inv len' r' k.
Proof.
  intros H Hl E. split.
  - intros i ? ? ? ?. rewrite !E by lia. apply H; lia.
  - intros c ? ? Ec. subst k. rewrite !E by lia.
    pose proof (H c). pose proof (H (c / 2)). lia.
Qed.

Lemma update_spec st k m :
  heap_wf st → 1 ≤ k → L st !! k = Some m →
  hole_inv (length (L st)) (refAt st) k →
  ∃ st', Heap.update m st = Some (tt, st') ∧ heap_wf st' ∧ heap_frame st st' ∧
         heap_ok (length (L st')) (refAt st').
Proof.
  intros W Pk Hm Hole.
  assert (k < length (L st)) as Hk by eauto using lookup_lt_Some.
  destruct (wf_node _ W _ _ Hm) as (nd & Hnd & P & _).
  unfold Heap.update, bind. rewrite (getNode_spec _ _ _ Hnd), P.
  rewrite isGreaterThanParent_spec by done.
  case_bool_decide as Hgt.
  - destruct Hgt. apply fixup_loop_spec; [done|done|done|lia|]. by apply hole_up.
  - unfold Heap.fixdown, bind, Heap.count.
    apply fixdown_loop_spec; [done|done|done|lia|]. apply hole_down; [done|].
    destruct (decide (k ≤ 1)); [by left|right].
    destruct (Z.le_gt_cases (refAt st (k / 2)) (refAt st k)); [done|].
    exfalso. apply Hgt. split; lia.
Qed.

Lemma wf_node_lt st k n : heap_wf st → L st !! k = Some n → n < length (nodes st).
Proof.
  intros W H. destruct (wf_node _ W _ _ H) as (nd & Hnd & _). eauto using lookup_lt_Some.
Qed.

(** [add] on an entry that no node of the heap carries yet. *)
Lemma add_spec st x :
  heap_wf st → heap_ok (length (L st)) (refAt st) →
  is_Some (objs st !! x) →
  (∀ k n, L st !! k = Some n → valOf st n ≠ Some x) →
  ∃ st', Heap.add x st = Some (length (nodes st), st') ∧ heap_wf st' ∧
         heap_ok (length (L st')) (refAt st') ∧
         objs st' = objs st ∧ arrs st' = arrs st ∧ clientNodeMap st' = clientNodeMap st ∧
         length (L st') = S (length (L st)) ∧
         length (nodes st') = S (length (nodes st)) ∧
         (∀ n, n < length (nodes st) → valOf st' n = valOf st n) ∧
         valOf st' (length (nodes st)) = Some x ∧
         (∀ n, inHeap st' n ↔ inHeap st n ∨ n = length (nodes st)).
Proof.
  intros W O Hx Fresh.
  pose proof (wf_nonempty _ W) as Hne.
  set (node := length (nodes st)).
  set (st1 := set_L (λ l, l ++ [node])
                (set_nodes (λ ns, ns ++ [mkNode x (length (L st))]) st)).
  assert (∀ i, i < length (L st) → L st1 !! i = L st !! i) as HL
    by (intros i Hi; simpl; by rewrite lookup_app_l).
  assert (L st1 !! length (L st) = Some node) as HLnew.
  { simpl. rewrite lookup_app_r by done. by rewrite Nat.sub_diag. }
  assert (∀ n, n < node → nodes st1 !! n = nodes st !! n) as HN
    by (intros n Hn; simpl; by rewrite lookup_app_l).
  assert (nodes st1 !! node = Some (mkNode x (length (L st)))) as HNnew.
  { simpl. rewrite lookup_app_r by done. by rewrite Nat.sub_diag. }
  assert (length (L st1) = S (length (L st))) as Hlen
    by (simpl; rewrite length_app; simpl; lia).
  assert (∀ i n, L st1 !! i = Some n →
            (i < length (L st) ∧ L st !! i = Some n) ∨ (i = length (L st) ∧ n = node)) as Hcase.
  { intros i n Hi. destruct (decide (i < length (L st))).
    - left. by rewrite <-HL.
    - right. assert (i < length (L st1)) by eauto using lookup_lt_Some.
      assert (i = length (L st)) as -> by lia. split; congruence. }
  assert (heap_wf st1) as W1.
  { split.
    - lia.
    - intros i n Hi. destruct (Hcase i n Hi) as [[? Hi']|[-> ->]].
      + destruct (wf_node _ W _ _ Hi') as (nd & ? & ? & ?). exists nd.
        rewrite HN by eauto using wf_node_lt. done.
      + eexists. split; [done|]. done.
    - intros k1 k2 n1 n2 v H1 H2 V1 V2. unfold valOf in V1, V2.
      destruct (Hcase _ _ H1) as [[? H1']|[-> ->]];
        destruct (Hcase _ _ H2) as [[? H2']|[-> ->]]; try done.
      + rewrite HN in V1, V2 by eauto using wf_node_lt. eauto using wf_value_inj.
      + rewrite HN in V1 by eauto using wf_node_lt. rewrite HNnew in V2.
        simpl in V2. exfalso. eapply Fresh; [done|]. unfold valOf. congruence.
      + rewrite HN in V2 by eauto using wf_node_lt. rewrite HNnew in V1.
        simpl in V1. exfalso. eapply Fresh; [done|]. unfold valOf. congruence. }
  assert (∀ i, i < length (L st) → refAt st1 i = refAt st i) as HR.
  { intros i Hi. unfold refAt, entryAt. rewrite HL by done.
    destruct (L st !! i) as [n|] eqn:E; [|done]. simpl.
    unfold objOfNode. by rewrite HN by eauto using wf_node_lt. }
  destruct (fixup_loop_spec (S (length (L st))) (length (L st)) st1)
    as (st2 & E2 & W2 & F2 & O2); [done|lia|lia|lia| |].
  { rewrite Hlen. split.
    - intros i ? ? ?. rewrite !HR by lia. apply O; lia.
    - intros c ? ? ?. lia. }
  exists st2. split.
  { change (Heap.add x st)
      with (match Heap.fixup (length (L st1) - 1) st1 with
            | Some (_, st') => Some (node, st')
            | None => None
            end).
    unfold Heap.fixup. replace (length (L st1) - 1) with (length (L st)) by lia.
    by rewrite E2. }
  destruct F2 as [Fo Fa Fm Fl Fn Fv Fh].
  split; [done|]. split; [done|]. split; [by rewrite Fo|]. split; [by rewrite Fa|].
  split; [by rewrite Fm|]. split; [by rewrite Fl|].
  split; [rewrite Fn; simpl; rewrite length_app; simpl; lia|].
  split; [intros n Hn; rewrite Fv; unfold valOf; by rewrite HN|].
  split; [rewrite Fv; unfold valOf; by rewrite HNnew|].
  intros n. rewrite Fh. split.
  - intros (i & Pi & Hi). destruct (Hcase _ _ Hi) as [[? Hi']|[-> ->]]; [left|by right].
    by exists i.
  - intros [(i & Pi & Hi)| ->].
    + exists i. split; [done|]. rewrite HL; eauto using lookup_lt_Some.
    + exists (length (L st)). split; [lia|done].
Qed.

(** [remove] on a node of an ordered heap. *)
Lemma remove_spec st p n :
  heap_wf st → heap_ok (length (L st)) (refAt st) → 1 ≤ p → L st !! p = Some n →
  ∃ st', Heap.remove n st = Some (tt, st') ∧ heap_wf st' ∧
         heap_ok (length (L st')) (refAt st') ∧
         objs st' = objs st ∧ arrs st' = arrs st ∧ clientNodeMap st' = clientNodeMap st ∧
         S (length (L st')) = length (L st) ∧
         length (nodes st') = length (nodes st) ∧
         (∀ m, valOf st' m = valOf st m) ∧
         (∀ m, inHeap st' m ↔ inHeap st m ∧ m ≠ n).
Proof.
  intros W O Pp Hn.
  assert (p < length (L st)) as Hp by eauto using lookup_lt_Some.
  destruct (wf_node _ W _ _ Hn) as (nd & Hnd & P & _).
  set (last := length (L st) - 1).
  destruct (swap_spec st p last W) as (st1 & E1 & W1 & F1 & HL1 & R1); [lia..|].
  destruct F1 as [Fo1 Fa1 Fm1 Fl1 Fn1 Fv1 Fh1].
  set (st2 := set_L (λ l, take (length l - 1) l) st1).
  assert (length (L st2) = last) as Hlen2.
  { simpl. rewrite length_take_le by lia. unfold last. lia. }
  assert (∀ i, i < last → L st2 !! i = L st1 !! i) as HL2.
  { intros i Hi. simpl. apply lookup_take_lt. unfold last in Hi. lia. }
  assert (∀ i x, L st2 !! i = Some x → i < last ∧ L st1 !! i = Some x) as HL2'.
  { intros i x Hi. assert (i < last) by (rewrite <-Hlen2; eauto using lookup_lt_Some).
    split; [done|]. by rewrite <-HL2. }
  assert (heap_wf st2) as W2.
  { split.
    - lia.
    - intros i x Hi. destruct (HL2' _ _ Hi) as [? Hi']. by apply (wf_node _ W1).
    - intros k1 k2 n1 n2 v H1 H2 V1 V2.
      destruct (HL2' _ _ H1) as [? H1']. destruct (HL2' _ _ H2) as [? H2'].
      by apply (wf_value_inj _ W1 k1 k2 n1 n2 v). }
  assert (∀ i, i < last → i ≠ p → refAt st2 i = refAt st i) as HR.
  { intros i Hi NE. transitivity (refAt st1 i).
    - unfold refAt, entryAt. by rewrite HL2.
    - rewrite R1. unfold swapped, transp. repeat case_decide; try done; lia. }
  assert (∀ m, inHeap st2 m ↔ inHeap st m ∧ m ≠ n) as Hin.
  { intros m. split.
    - intros (i & Pi & Hi). destruct (HL2' _ _ Hi) as [Hl Hi']. rewrite HL1 in Hi'. split.
      + exists (transp p last i). split; [apply transp_pos; lia|done].
      + intros ->. assert (transp p last i = p) as E by eauto using wf_slot_inj.
        unfold transp in E. repeat case_decide; lia.
    - intros [(i & Pi & Hi) NE].
      assert (i < length (L st)) by eauto using lookup_lt_Some.
      assert (i ≠ p) by (intros ->; congruence).
      exists (transp p last i).
      assert (transp p last i < last) by (unfold transp; repeat case_decide; lia).
      split; [apply transp_pos; lia|]. rewrite HL2 by done. by rewrite HL1, transp_invol. }
  assert (Heap.remove n st
          = (if decide (p ≠ last) then m <- Heap.at_ p ;; Heap.update m else ret tt) st2) as E.
  { unfold Heap.remove, bind at 1. rewrite (getNode_spec _ _ _ Hnd), P.
    unfold bind at 1. unfold Heap.length_L at 1. fold last.
    unfold bind at 1. rewrite E1.
    unfold bind at 1. unfold modify. fold st2.
    unfold bind at 1. unfold Heap.length_L. by rewrite Hlen2. }
  rewrite E.
  destruct (decide (p ≠ last)) as [NE|Eq].
  - assert (p < last) as Hpl by lia.
    destruct (lookup_lt_is_Some_2 (L st2) p) as [m Hm]; [lia|].
    destruct (update_spec st2 p m W2 Pp Hm) as (st3 & E3 & W3 & F3 & O3).
    { rewrite Hlen2. apply (hole_inv_replace (length (L st)) _ (refAt st)); [done|lia|done]. }
    exists st3. unfold bind. rewrite (at_spec _ _ _ Hm).
    destruct F3 as [Fo3 Fa3 Fm3 Fl3 Fn3 Fv3 Fh3].
    split; [done|]. split; [done|]. split; [done|].
    split; [by rewrite Fo3|]. split; [by rewrite Fa3|]. split; [by rewrite Fm3|].
    split; [rewrite Fl3, Hlen2; unfold last; lia|].
    split; [by rewrite Fn3|].
    split; [intros x; rewrite Fv3; apply Fv1|].
    intros x. by rewrite Fh3.
  - assert (p = last) as -> by (destruct (decide (p = last)); [done|by destruct Eq]).
    exists st2. split; [done|]. split; [done|].
    split.
    { rewrite Hlen2. intros i ? ?. rewrite !HR by lia. apply O; lia. }
    split; [done|]. split; [done|]. split; [done|].
    split; [rewrite Hlen2; unfold last; lia|].
    split; [done|]. split; [apply Fv1|]. done.
Qed.

(** ** The map, as a list of entries *)

Lemma JsMap_get_Some_elem k v (m : list (string * loc)) :
  JsMap.get k m = Some v → (k, v) ∈ m.
Proof.
  induction m as [|[k' v'] m IH]; simpl; [done|].
  case_decide; intros E.
  - injection E as ->. subst. apply list_elem_of_here.
  - apply list_elem_of_further. by apply IH.
Qed.

Lemma JsMap_get_None k (m : list (string * loc)) :
  JsMap.get k m = None ↔ k ∉ m.*1.
Proof.
  induction m as [|[k' v'] m IH]; simpl.
  - split; [intros _ H; inversion H|done].
  - rewrite not_elem_of_cons. case_decide; subst.
    + split; [done|]. by intros [? _].
    + rewrite IH. split; [by intros ?; split|by intros [_ ?]].
Qed.

Lemma JsMap_get_elem k v (m : list (string * loc)) :
  NoDup m.*1 → (k, v) ∈ m → JsMap.get k m = Some v.
Proof.
  induction m as [|[k' v'] m IH]; simpl; intros ND H; [inversion H|].
  apply NoDup_cons in ND as [Hk ND]. apply elem_of_cons in H as [E|H].
  - injection E as -> ->. by rewrite decide_True.
  - case_decide; subst.
    + exfalso. apply Hk. apply list_elem_of_fmap. by exists (k, v).
    + by apply IH.
Qed.

Lemma JsMap_set_fresh k v (m : list (string * loc)) :
  JsMap.get k m = None → JsMap.set k v m = m ++ [(k, v)].
Proof.
  induction m as [|[k' v'] m IH]; simpl; [done|].
  case_decide; [done|]. intros E. by rewrite IH.
Qed.

Lemma JsMap_delete_elem k (m : list (string * loc)) x :
  NoDup m.*1 → x ∈ JsMap.delete k m ↔ x ∈ m ∧ x.1 ≠ k.
Proof.
  induction m as [|[k' v'] m IH]; simpl; intros ND.
  - split; [intros H; inversion H|by intros [H _]; inversion H].
  - apply NoDup_cons in ND as [Hk ND]. case_decide; subst.
    + rewrite elem_of_cons. split.
      * intros H. split; [by right|]. intros <-. apply Hk.
        apply list_elem_of_fmap. by exists x.
      * intros [[->|H] NE]; [done|done].
    + rewrite !elem_of_cons, IH by done. split.
      * intros [->|[? ?]]; [split; [by left|done]|split; [by right|done]].
      * intros [[->|?] ?]; [by left|by right].
Qed.

Lemma JsMap_delete_length k v (m : list (string * loc)) :
  JsMap.get k m = Some v → S (length (JsMap.delete k m)) = length m.
Proof.
  induction m as [|[k' v'] m IH]; simpl; [done|].
  case_decide; [done|]. intros E. simpl. by rewrite IH.
Qed.

Lemma JsMap_delete_keys k (m : list (string * loc)) :
  NoDup m.*1 → NoDup (JsMap.delete k m).*1 ∧ k ∉ (JsMap.delete k m).*1.
Proof.
  induction m as [|[k' v'] m IH]; simpl; intros ND.
  - split; [constructor|intros H; inversion H].
  - apply NoDup_cons in ND as [Hk ND]. case_decide; subst; [done|].
    destruct (IH ND) as [IH1 IH2]. simpl. split.
    + apply NoDup_cons. split; [|done]. intros Hin.
      apply list_elem_of_fmap in Hin as ([k2 v2] & -> & Hin).
      apply JsMap_delete_elem in Hin as [Hin _]; [|done].
      apply Hk. apply list_elem_of_fmap. by exists (k2, v2).
    + rewrite not_elem_of_cons. done.
Qed.

Lemma JsMap_has_true k (m : list (string * loc)) :
  JsMap.has k m = true ↔ ∃ v, JsMap.get k m = Some v.
Proof. unfold JsMap.has. rewrite bool_decide_eq_true. done. Qed.

Lemma JsMap_has_false k (m : list (string * loc)) :
  JsMap.has k m = false ↔ JsMap.get k m = None.
Proof.
  unfold JsMap.has. rewrite bool_decide_eq_false.
  destruct (JsMap.get k m); [|by split; [|intros _ [? ?]]].
  split; [intros H; destruct H; by eexists|done].
Qed.

(** ** Running the monad, one call at a time *)

Lemma bind_Some {A B} (m : M A) (k : A → M B) st a st1 :
  m st = Some (a, st1) → bind m k st = k a st1.
Proof. unfold bind. by intros ->. Qed.

(* Runs the first call of a sequence, given a tactic that evaluates it. *)
Ltac mstep tac := etransitivity; [apply bind_Some; tac | cbv beta].

Lemma modifyObj_spec st l f o :
  objs st !! l = Some o → modifyObj l f st = Some (tt, set_objs <[l := f o]> st).
Proof. intros H. unfold modifyObj. by mstep ltac:(by apply getObj_spec). Qed.

Lemma upsert_entry sc st :
  match sc with Some a => ret a | None => newArray [] end st
  = Some (entered_scopes sc st, entered sc st).
Proof. by destruct sc. Qed.

Lemma upsert_existing_eq st id csn rsn ts ce sc nk md n nd o :
  JsMap.get id (clientNodeMap st) = Some n →
  nodes st !! n = Some nd → objs st !! value nd = Some o →
  upsertClient id csn rsn ts ce sc nk md st
  = (Heap.update n ;; ret false)
      (set_objs <[value nd := updated rsn csn ts nk md o]> (entered sc st)).
Proof.
  intros Hg Hnd Ho.
  assert (value nd < length (objs st)) by eauto using lookup_lt_Some.
  assert (clientNodeMap (entered sc st) = clientNodeMap st) as Em by by destruct sc.
  assert (nodes (entered sc st) = nodes st) as En by by destruct sc.
  assert (objs (entered sc st) = objs st) as Eo by by destruct sc.
  unfold upsertClient.
  mstep ltac:(apply upsert_entry).
  mstep ltac:(unfold mapGet; rewrite Em, Hg; reflexivity).
  mstep ltac:(apply getNode_spec; rewrite En; exact Hnd).
  mstep ltac:(apply modifyObj_spec; rewrite Eo; exact Ho).
  mstep ltac:(apply modifyObj_spec; simpl; rewrite list_lookup_insert_eq by (by rewrite Eo);
              reflexivity).
  mstep ltac:(apply modifyObj_spec; simpl;
              rewrite list_lookup_insert_eq by (by rewrite length_insert, Eo); reflexivity).
  mstep ltac:(apply modifyObj_spec; simpl;
              rewrite list_lookup_insert_eq by (by rewrite !length_insert, Eo); reflexivity).
  unfold updated. destruct (truthy md).
  - mstep ltac:(apply modifyObj_spec; simpl;
                rewrite list_lookup_insert_eq by (by rewrite !length_insert, Eo); reflexivity).
    unfold set_objs. simpl. by rewrite !list_insert_insert_eq.
  - mstep ltac:(reflexivity).
    unfold set_objs. simpl. by rewrite !list_insert_insert_eq.
Qed.

Lemma Inv_init : Inv init_state.
Proof.
  split.
  - split; simpl.
    + lia.
    + intros [|k] n H; [|done]. injection H as <-. eexists. split; [done|].
      split; [done|]. by eexists.
    + intros k1 k2 n1 n2 v H1 H2 _ _. destruct k1, k2; done.
  - intros i ? ?. simpl in *. lia.
  - constructor.
  - done.
  - intros id n H. inversion H.
  - intros n (k & Pk & Hk). destruct k as [|[|?]]; [lia|done|done].
Qed.

Lemma Inv_entered sc st : Inv st → Inv (entered sc st).
Proof.
  destruct sc; [done|]. intros [[] ? ? ? ? ?]. split; [split|..]; assumption.
Qed.

Lemma updated_clientId rsn csn ts nk md o :
  clientId (updated rsn csn ts nk md o) = clientId o.
Proof. unfold updated. by destruct (truthy md). Qed.

Lemma objOfNode_set_objs st v o' m :
  v < length (objs st) →
  objOfNode (set_objs <[v := o']> st) m
  = if decide (valOf st m = Some v) then Some o' else objOfNode st m.
Proof.
  intros Hv. unfold objOfNode, valOf. simpl.
  destruct (nodes st !! m) as [nd|]; simpl; [|done].
  case_decide as E.
  - injection E as ->. by rewrite list_lookup_insert_eq.
  - rewrite list_lookup_insert_ne; [done|congruence].
Qed.

(** Overwriting the entry of the node in slot [k] leaves a well-formed heap
    that is ordered except around [k]. *)
Lemma set_entry_spec st k n nd o' :
  heap_wf st → heap_ok (length (L st)) (refAt st) →
  L st !! k = Some n → nodes st !! n = Some nd →
  let st1 := set_objs <[value nd := o']> st in
  heap_wf st1 ∧ hole_inv (length (L st1)) (refAt st1) k.
Proof.
  intros W O Hk Hnd st1.
  destruct (wf_node _ W _ _ Hk) as (nd0 & Hnd0 & P & Ho).
  assert (nd0 = nd) as -> by congruence.
  assert (value nd < length (objs st)) as Hv by (by apply lookup_lt_is_Some).
  split.
  - split.
    + by destruct W.
    + intros i m Hi. destruct (wf_node _ W _ _ Hi) as (ndm & ? & ? & Hom).
      exists ndm. split; [done|]. split; [done|].
      apply lookup_lt_is_Some. simpl. rewrite length_insert. by apply lookup_lt_is_Some.
    + intros ? ? ? ? ?. by apply (wf_value_inj _ W).
  - apply (hole_inv_replace (length (L st)) _ (refAt st)); [done|done|].
    intros i Hi NE. unfold refAt, entryAt. change (L st1) with (L st).
    destruct (L st !! i) as [m|] eqn:Hm; [|done]. simpl.
    unfold st1. rewrite objOfNode_set_objs by done.
    rewrite decide_False; [done|]. intros V. apply NE.
    apply (wf_value_inj _ W i k m n (value nd)); [done|done|done|].
    unfold valOf. by rewrite Hnd.
Qed.

Lemma upsert_existing_spec st id csn rsn ts ce sc nk md n :
  Inv st → JsMap.get id (clientNodeMap st) = Some n →
  ∃ st' nd o,
    nodes st !! n = Some nd ∧ objs st !! value nd = Some o ∧
    upsertClient id csn rsn ts ce sc nk md st = Some (false, st') ∧
    Inv st' ∧
    clientNodeMap st' = clientNodeMap st ∧
    objs st' = <[value nd := updated rsn csn ts nk md o]> (objs st) ∧
    arrs st' = arrs (entered sc st) ∧
    (∀ m, valOf st' m = valOf st m).
Proof.
  intros I Hg.
  pose proof (Inv_entered sc st I) as I0.
  assert (clientNodeMap (entered sc st) = clientNodeMap st) as Em by by destruct sc.
  assert (nodes (entered sc st) = nodes st) as En by by destruct sc.
  assert (objs (entered sc st) = objs st) as Eo by by destruct sc.
  assert (L (entered sc st) = L st) as El by by destruct sc.
  set (st0 := entered sc st) in *.
  destruct I0 as [W0 O0 K0 S0 M0 H0].
  assert ((id, n) ∈ clientNodeMap st0) as Hin
    by (rewrite Em; by apply JsMap_get_Some_elem).
  destruct (M0 _ _ Hin) as [(k & Pk & Hk) (o & Ho & Hid)].
  destruct (wf_node _ W0 _ _ Hk) as (nd & Hnd & P & _).
  assert (objs st0 !! value nd = Some o) as Hov.
  { unfold objOfNode in Ho. rewrite Hnd in Ho. done. }
  assert (value nd < length (objs st0)) as Hv by eauto using lookup_lt_Some.
  set (o' := updated rsn csn ts nk md o).
  destruct (set_entry_spec st0 k n nd o' W0 O0 Hk Hnd) as [W1 Hole1].
  set (st1 := set_objs <[value nd := o']> st0) in *.
  destruct (update_spec st1 k n W1 Pk Hk Hole1) as (st2 & E2 & W2 & F2 & O2).
  destruct F2 as [Fo Fa Fm Fl Fn Fv Fh].
  exists st2, nd, o. split; [by rewrite <-En|]. split; [by rewrite <-Eo|].
  split.
  { rewrite (upsert_existing_eq st id csn rsn ts ce sc nk md n nd o);
      [|done|by rewrite <-En|by rewrite <-Eo].
    fold st0 o' st1. unfold bind. by rewrite E2. }
  split; [|split; [by rewrite Fm|split; [by rewrite Fo, <-Eo|split; [by rewrite Fa|]]]].
  - split; [done|done|by rewrite Fm|by rewrite Fm, Fl|..].
    + intros id' m Hm. rewrite Fm in Hm. destruct (M0 _ _ Hm) as [Hh (om & Hom & Hidm)].
      split; [by apply Fh|].
      rewrite (objOfNode_frame st1 st2) by done.
      unfold st1. rewrite objOfNode_set_objs by done.
      case_decide as V; [|by exists om].
      exists o'. split; [done|]. unfold o'. rewrite updated_clientId.
      rewrite objOfNode_val, V in Hom. simpl in Hom. congruence.
    + intros m Hm. rewrite Fm. apply H0. by apply Fh.
  - intros m. rewrite Fv. unfold valOf. by rewrite <-En.
Qed.

Lemma objOfNode_alloc st o m om :
  objOfNode st m = Some om → objOfNode (set_objs (λ os, os ++ [o]) st) m = Some om.
Proof.
  unfold objOfNode. simpl. destruct (nodes st !! m) as [nd|]; simpl; [|done].
  apply lookup_app_l_Some.
Qed.

Lemma wf_objOfNode st k n :
  heap_wf st → L st !! k = Some n → ∃ o, objOfNode st n = Some o.
Proof.
  intros W H. destruct (wf_node _ W _ _ H) as (nd & Hnd & _ & [o Ho]).
  exists o. unfold objOfNode. by rewrite Hnd.
Qed.

Lemma alloc_obj_spec st o :
  heap_wf st → heap_ok (length (L st)) (refAt st) →
  let st1 := set_objs (λ os, os ++ [o]) st in
  heap_wf st1 ∧ heap_ok (length (L st1)) (refAt st1) ∧
  (∀ k n, L st1 !! k = Some n → valOf st1 n ≠ Some (length (objs st))).
Proof.
  intros W O st1. split; [|split].
  - split.
    + by destruct W.
    + intros i m Hi. destruct (wf_node _ W _ _ Hi) as (ndm & ? & ? & [om Hom]).
      exists ndm. split; [done|]. split; [done|]. exists om. simpl.
      by apply lookup_app_l_Some.
    + intros ? ? ? ? ?. by apply (wf_value_inj _ W).
  - apply (heap_ok_ext _ (refAt st)); [|done].
    intros i Hi. unfold refAt, entryAt. change (L st1) with (L st).
    destruct (L st !! i) as [m|] eqn:Hm; [|done]. simpl.
    destruct (wf_objOfNode _ _ _ W Hm) as [om Hom].
    by rewrite (objOfNode_alloc st o m om Hom : objOfNode st1 m = Some om), Hom.
  - intros k n Hk V. destruct (wf_node _ W _ _ Hk) as (nd & Hnd & _ & Ho).
    unfold valOf in V. simpl in V. rewrite Hnd in V. injection V as V.
    apply lookup_lt_is_Some in Ho. lia.
Qed.

Lemma upsert_new_spec st id csn rsn ts ce sc nk md :
  Inv st → JsMap.get id (clientNodeMap st) = None →
  ∃ st',
    upsertClient id csn rsn ts ce sc nk md st = Some (true, st') ∧
    Inv st' ∧
    clientNodeMap st' = clientNodeMap st ++ [(id, length (nodes st))] ∧
    objs st' = objs st ++ [mkClient ce (Some id) csn ts nk rsn (entered_scopes sc st) md] ∧
    arrs st' = arrs (entered sc st) ∧
    (∀ m, m < length (nodes st) → valOf st' m = valOf st m) ∧
    valOf st' (length (nodes st)) = Some (length (objs st)).
Proof.
  intros I Hg.
  pose proof (Inv_entered sc st I) as I0.
  assert (clientNodeMap (entered sc st) = clientNodeMap st) as Em by by destruct sc.
  assert (nodes (entered sc st) = nodes st) as En by by destruct sc.
  assert (objs (entered sc st) = objs st) as Eo by by destruct sc.
  set (a := entered_scopes sc st).
  set (st0 := entered sc st) in *.
  destruct I0 as [W0 O0 K0 S0 M0 H0].
  set (o := mkClient ce (Some id) csn ts nk rsn a md).
  destruct (alloc_obj_spec st0 o W0 O0) as (W1 & O1 & Fresh).
  set (st1 := set_objs (λ os, os ++ [o]) st0) in *.
  destruct (add_spec st1 (length (objs st0)) W1 O1) as
    (st2 & E2 & W2 & O2 & Fo & Fa & Fm & Fl & Fn & Fv & Fnew & Fh); [|done|].
  { apply lookup_lt_is_Some. simpl. rewrite length_app. simpl. lia. }
  change (nodes st1) with (nodes st0) in *. change (L st1) with (L st0) in *.
  set (node := length (nodes st0)) in *.
  exists (set_clientNodeMap (JsMap.set id node) st2).
  split.
  { unfold upsertClient.
    mstep ltac:(apply upsert_entry).
    mstep ltac:(unfold mapGet; fold st0; rewrite Em, Hg; reflexivity).
    mstep ltac:(reflexivity).
    mstep ltac:(exact E2).
    reflexivity. }
  assert (JsMap.set id node (clientNodeMap st2) = clientNodeMap st0 ++ [(id, node)]) as Eset.
  { rewrite Fm. apply JsMap_set_fresh. by rewrite Em. }
  split; [|split; [simpl; by rewrite Eset, Em, <-En|
           split; [simpl; by rewrite Fo, <-Eo|
           split; [done|
           split; [intros m Hm; rewrite <-En in Hm;
                   etrans; [by apply Fv|]; unfold valOf; simpl; by rewrite En|
                   rewrite <-En, <-Eo; exact Fnew]]]]].
  split.
  - destruct W2. by split.
  - done.
  - simpl. rewrite Eset, fmap_app. apply NoDup_app. split; [done|]. split.
    + intros x Hx Hx'. apply list_elem_of_singleton in Hx'. simpl in Hx'. subst x.
      apply JsMap_get_None in Hg. by rewrite Em in Hx.
    + apply NoDup_singleton.
  - simpl. rewrite Eset, length_app. simpl. change (L st1) with (L st0) in Fl. lia.
  - intros id' m Hm. simpl in Hm. rewrite Eset in Hm. apply elem_of_app in Hm as [Hm|Hm].
    + destruct (M0 _ _ Hm) as [Hh (om & Hom & Hidm)].
      split; [apply Fh; by left|]. exists om. split; [|done].
      destruct Hh as (k & _ & Hk).
      assert (m < node) by eauto using wf_node_lt.
      rewrite objOfNode_val. change (valOf _ m) with (valOf st2 m).
      change (objs _) with (objs st2). rewrite Fv, Fo, <-objOfNode_val by done.
      by apply objOfNode_alloc.
    + apply list_elem_of_singleton in Hm. injection Hm as -> ->.
      split; [apply Fh; by right|]. exists o. split; [|done].
      rewrite objOfNode_val. change (valOf _ node) with (valOf st2 node).
      change (objs _) with (objs st2). rewrite Fnew, Fo. simpl.
      rewrite lookup_app_r by done. by rewrite Nat.sub_diag.
  - intros m Hm. simpl. rewrite Eset.
    apply (Fh m) in Hm as [Hm| ->].
    + destruct (H0 _ Hm) as [id' Hid']. exists id'. apply elem_of_app. by left.
    + exists id. apply elem_of_app. right. by apply list_elem_of_singleton.
Qed.

Lemma remove_untracked_spec st id :
  JsMap.get id (clientNodeMap st) = None → removeClient id st = Some (false, st).
Proof. intros Hg. unfold removeClient, bind, mapGet. by rewrite Hg. Qed.

Lemma remove_tracked_spec st id n :
  Inv st → JsMap.get id (clientNodeMap st) = Some n →
  ∃ st',
    removeClient id st = Some (true, st') ∧
    Inv st' ∧
    clientNodeMap st' = JsMap.delete id (clientNodeMap st) ∧
    objs st' = objs st ∧ arrs st' = arrs st ∧
    (∀ m, valOf st' m = valOf st m).
Proof.
  intros [W O K S M H] Hg.
  pose proof (JsMap_get_Some_elem _ _ _ Hg) as Hin.
  destruct (M _ _ Hin) as [(p & Pp & Hp) (o & Ho & Hid)].
  destruct (remove_spec st p n W O Pp Hp)
    as (st2 & E2 & W2 & O2 & Fo & Fa & Fm & Fl & Fn & Fv & Fh).
  exists (set_clientNodeMap (JsMap.delete id) st2).
  split.
  { unfold removeClient.
    mstep ltac:(unfold mapGet; rewrite Hg; reflexivity).
    mstep ltac:(exact E2).
    reflexivity. }
  split; [|split; [simpl; by rewrite Fm|done]].
  split.
  - destruct W2. by split.
  - done.
  - simpl. rewrite Fm. by apply JsMap_delete_keys.
  - simpl. rewrite Fm. pose proof (JsMap_delete_length _ _ _ Hg). lia.
  - intros id' m Hm. simpl in Hm. rewrite Fm in Hm.
    apply JsMap_delete_elem in Hm as [Hm NE]; [|done]. simpl in NE.
    destruct (M _ _ Hm) as [Hh (om & Hom & Hidm)]. split.
    + apply Fh. split; [done|]. intros ->. congruence.
    + exists om. split; [|done]. rewrite <-Hom.
      apply objOfNode_frame; [exact Fo|exact (Fv m)].
  - intros m Hm. apply Fh in Hm as [Hm NE].
    destruct (H _ Hm) as [id' Hid']. exists id'. simpl. rewrite Fm.
    apply JsMap_delete_elem; [done|]. split; [done|]. simpl. intros ->.
    apply NE. apply (JsMap_get_elem _ _ _ K) in Hid'. congruence.
Qed.

(** ** Every sequence of calls runs, and keeps the invariant *)

Lemma step_Inv op st :
  Inv st → ∃ r st', step op st = Some (r, st') ∧ Inv st'.
Proof.
  intros I. destruct op as [id csn rsn ts ce sc nk md|id]; simpl.
  - set (st0 := match sc with
                | Some xs => set_arrs (λ a, a ++ [xs]) st
                | None => st
                end).
    set (a := match sc with Some _ => Some (length (arrs st)) | None => None end).
    assert (Inv st0) as I0.
    { unfold st0. destruct sc; [|done]. destruct I as [[] ? ? ? ? ?].
      split; [split|..]; assumption. }
    assert (∀ k : option loc → M bool, (a <- match sc with
                 | Some xs => l <- newArray xs ;; ret (Some l)
                 | None => ret None
                 end ;; k a) st = k a st0) as E by (intros k; by destruct sc).
    rewrite (E (λ a, upsertClient id csn rsn ts ce a nk md)).
    destruct (JsMap.get id (clientNodeMap st0)) as [n|] eqn:Hg.
    + destruct (upsert_existing_spec st0 id csn rsn ts ce a nk md n I0 Hg)
        as (st' & ? & ? & _ & _ & -> & I' & _). eauto.
    + destruct (upsert_new_spec st0 id csn rsn ts ce a nk md I0 Hg)
        as (st' & -> & I' & _). eauto.
  - destruct (JsMap.get id (clientNodeMap st)) as [n|] eqn:Hg.
    + destruct (remove_tracked_spec st id n I Hg) as (st' & -> & I' & _). eauto.
    + rewrite remove_untracked_spec by done. eauto.
Qed.

Lemma run_Inv ops : ∀ st, Inv st → ∃ st', run ops st = Some st' ∧ Inv st'.
Proof.
  induction ops as [|op ops IH]; intros st I; simpl; [eauto|].
  destruct (step_Inv op st I) as (r & st1 & -> & I1). by apply IH.
Qed.

Lemma run_init_Inv ops st : run ops init_state = Some st → Inv st.
Proof.
  intros E. destruct (run_Inv ops init_state Inv_init) as (st' & E' & I). congruence.
Qed.

(** ** What a caller observes *)

Lemma getValue_eq id st :
  getValue id st = (n ← JsMap.get id (clientNodeMap st); objOfNode st n).
Proof.
  unfold getValue, get, bind, mapGet, objOfNode.
  destruct (JsMap.get id (clientNodeMap st)) as [n|]; simpl; [|done].
  unfold getNode, lift. by destruct (nodes st !! n).
Qed.

Lemma has_trackedIds id st :
  result (has id) st = Some true ↔ id ∈ trackedIds st.
Proof.
  unfold result, has, trackedIds. simpl. split.
  - intros E. injection E as E. apply JsMap_has_true in E as [v E].
    apply JsMap_get_Some_elem in E. apply list_elem_of_fmap. by exists (id, v).
  - intros Hin. f_equal. destruct (JsMap.has id (clientNodeMap st)) eqn:E; [done|].
    apply JsMap_has_false, JsMap_get_None in E. done.
Qed.

Lemma Inv_getValue st id :
  Inv st → id ∈ trackedIds st →
  ∃ n k o, JsMap.get id (clientNodeMap st) = Some n ∧ 1 ≤ k ∧ L st !! k = Some n ∧
           getValue id st = Some o ∧ entryAt st k = Some o ∧ clientId o = Some id.
Proof.
  intros I Hin. apply list_elem_of_fmap in Hin as ([id' n] & -> & Hin). simpl.
  destruct (inv_map _ I _ _ Hin) as [(k & Pk & Hk) (o & Ho & Hid)].
  exists n, k, o. rewrite getValue_eq, (JsMap_get_elem _ _ _ (inv_keys _ I) Hin). simpl.
  unfold entryAt. rewrite Hk. done.
Qed.

Lemma foldr_min_le_init (r : Z) rs : (foldr Z.min r rs ≤ r)%Z.
Proof. induction rs; simpl; lia. Qed.

Lemma foldr_min_le (r : Z) rs y : y ∈ r :: rs → (foldr Z.min r rs ≤ y)%Z.
Proof.
  induction rs as [|x rs IH]; simpl; intros H.
  - apply list_elem_of_singleton in H. lia.
  - pose proof (foldr_min_le_init r rs).
    apply elem_of_cons in H as [E|H]; [lia|].
    apply elem_of_cons in H as [E|H]; [lia|].
    assert (foldr Z.min r rs ≤ y)%Z by (apply IH; by right). lia.
Qed.

Lemma foldr_min_elem (r : Z) rs : foldr Z.min r rs ∈ r :: rs.
Proof.
  induction rs as [|x rs IH]; simpl; [by left|].
  destruct (Z.min_spec x (foldr Z.min r rs)) as [[_ ->]|[_ ->]].
  - right. by left.
  - apply elem_of_cons in IH as [->|IH]; [by left|]. right. by right.
Qed.

Lemma foldr_min_unique (r : Z) rs x :
  x ∈ r :: rs → (∀ y, y ∈ r :: rs → (x ≤ y)%Z) → foldr Z.min r rs = x.
Proof.
  intros Hin Hle. pose proof (foldr_min_le r rs x Hin).
  pose proof (Hle _ (foldr_min_elem r rs)). lia.
Qed.

Lemma length_omap_total {A B} (f : A → option B) (l : list A) :
  (∀ x, x ∈ l → is_Some (f x)) → length (omap f l) = length l.
Proof.
  induction l as [|a l IH]; intros H; [done|].
  destruct (H a) as [b E]; [by left|]. simpl. rewrite E. simpl. f_equal.
  apply IH. intros x Hx. apply H. by right.
Qed.

Lemma trackedRefs_length st : Inv st → length (trackedRefs st) = length (trackedIds st).
Proof.
  intros I. apply length_omap_total. intros id Hid.
  destruct (Inv_getValue st id I Hid) as (n & k & o & _ & _ & _ & -> & _). by eexists.
Qed.

Lemma getMinimumSequenceNumber_Inv st :
  Inv st →
  match trackedRefs st with
  | [] => result getMinimumSequenceNumber st = Some (-1)%Z
  | r :: rs => result getMinimumSequenceNumber st = Some (foldr Z.min r rs)
  end.
Proof.
  intros I. pose proof (trackedRefs_length st I) as Hlen.
  pose proof (inv_size _ I) as Hsize. unfold trackedIds in Hlen.
  rewrite length_fmap in Hlen.
  unfold result, getMinimumSequenceNumber, bind, Heap.count, Heap.peek.
  destruct (trackedRefs st) as [|r rs] eqn:Erefs.
  - simpl in Hlen. replace (length (L st) - 1) with 0 by lia. done.
  - simpl in Hlen. destruct (Nat.ltb_spec 0 (length (L st) - 1)) as [_|?]; [|lia].
    destruct (wf_entry st 1 (inv_wf _ I)) as (n & nd & o & Hn & Hnd & _ & Ho & He & R); [lia|].
    rewrite Hn. unfold getNode, getObj, lift. rewrite Hnd, Ho. simpl. do 2 f_equal.
    rewrite <-R. symmetry. apply foldr_min_unique.
    + rewrite <-Erefs. apply list_elem_of_omap.
      destruct (inv_heap _ I n) as [id Hid]; [exists 1; by split|].
      exists id. split; [apply list_elem_of_fmap; by exists (id, n)|].
      rewrite getValue_eq, (JsMap_get_elem _ _ _ (inv_keys _ I) Hid). simpl.
      unfold entryAt in He. rewrite Hn in He. simpl in He. rewrite He. simpl. by rewrite R.
    + intros y Hy. rewrite <-Erefs in Hy. apply list_elem_of_omap in Hy as (id & Hid & Hy).
      destruct (Inv_getValue st id I Hid) as (m & k & om & _ & Pk & Hk & Hv & Hek & _).
      rewrite Hv in Hy. injection Hy as <-.
      assert (refAt st k = referenceSequenceNumber om) as <-
        by (unfold refAt; by rewrite Hek).
      apply heap_ok_root with (len := length (L st)); [by destruct I|done|].
      eauto using lookup_lt_Some.
Qed.

(** C1. After every sequence of [upsertClient]/[removeClient] calls on a new
    manager, all of which return, [getMinimumSequenceNumber()] returns the
    least [referenceSequenceNumber] among the tracked clients (the ids [has]
    accepts, each with the object [get] gives), and [-1] when none is tracked. *)
Theorem getMinimumSequenceNumber_minimum (ops : list Op) :
  ∃ st, run ops init_state = Some st ∧
    (∀ id, result (has id) st = Some true ↔ id ∈ trackedIds st) ∧
    length (trackedRefs st) = length (trackedIds st) ∧
    match trackedRefs st with
    | [] => result getMinimumSequenceNumber st = Some (-1)%Z
    | r :: rs =>
        result getMinimumSequenceNumber st = Some (foldr Z.min r rs) ∧
        foldr Z.min r rs ∈ trackedRefs st ∧
        ∀ y, y ∈ trackedRefs st → (foldr Z.min r rs ≤ y)%Z
    end.
Proof.
  destruct (run_Inv ops init_state Inv_init) as (st & E & I).
  exists st. split; [done|]. split; [intros id; apply has_trackedIds|].
  split; [by apply trackedRefs_length|].
  pose proof (getMinimumSequenceNumber_Inv st I) as H.
  destruct (trackedRefs st) as [|r rs]; [done|].
  split; [done|]. split; [apply foldr_min_elem|apply foldr_min_le].
Qed.

Lemma get_result id st :
  result (get id) st
  = match JsMap.get id (clientNodeMap st) with
    | None => Some None
    | Some n => Some <$> valOf st n
    end.
Proof.
  unfold result, get, bind, mapGet, valOf.
  destruct (JsMap.get id (clientNodeMap st)) as [n|]; [|done].
  unfold getNode, lift. by destruct (nodes st !! n).
Qed.

Lemma has_result id st : result (has id) st = Some (JsMap.has id (clientNodeMap st)).
Proof. done. Qed.

Lemma count_result st : result count st = Some (length (clientNodeMap st)).
Proof. done. Qed.

Lemma objOfNode_insert st st' v o' m :
  v < length (objs st) → objs st' = <[v := o']> (objs st) → valOf st' m = valOf st m →
  objOfNode st' m = if decide (valOf st m = Some v) then Some o' else objOfNode st m.
Proof.
  intros Hv Eo Ev. rewrite <-(objOfNode_set_objs st v o' m Hv).
  by apply objOfNode_frame.
Qed.

(** What a call of [upsertClient] does in a state that satisfies the
    invariant, for a client that is tracked and for one that is not. *)
Lemma upsertClient_Inv st id csn rsn ts ce sc nk md :
  Inv st →
  ∃ r st', upsertClient id csn rsn ts ce sc nk md st = Some (r, st') ∧ Inv st' ∧
    arrs st' = arrs (entered sc st) ∧
    if JsMap.has id (clientNodeMap st) then
      r = false ∧ clientNodeMap st' = clientNodeMap st ∧
      result (get id) st' = result (get id) st ∧
      ∃ o, getValue id st = Some o ∧
           getValue id st' = Some (updated rsn csn ts nk md o)
    else
      r = true ∧ JsMap.has id (clientNodeMap st') = true ∧
      length (clientNodeMap st') = S (length (clientNodeMap st)) ∧
      getValue id st'
      = Some (mkClient ce (Some id) csn ts nk rsn (entered_scopes sc st) md).
Proof.
  intros I. destruct (JsMap.has id (clientNodeMap st)) eqn:Hhas.
  - apply JsMap_has_true in Hhas as [n Hg].
    destruct (upsert_existing_spec st id csn rsn ts ce sc nk md n I Hg)
      as (st' & nd & o & Hnd & Ho & E & I' & Em & Eo & Ea & Ev).
    exists false, st'. split; [done|]. split; [done|]. split; [done|].
    split; [done|]. split; [done|]. split.
    + by rewrite !get_result, Em, Hg, Ev.
    + exists o. rewrite !getValue_eq, Em, Hg. simpl.
      assert (value nd < length (objs st)) as Hv by eauto using lookup_lt_Some.
      rewrite (objOfNode_insert st st' _ _ n Hv Eo (Ev n)).
      unfold objOfNode, valOf. rewrite Hnd. simpl. by rewrite decide_True.
  - apply JsMap_has_false in Hhas.
    destruct (upsert_new_spec st id csn rsn ts ce sc nk md I Hhas)
      as (st' & E & I' & Em & Eo & Ea & Ev & Enew).
    exists true, st'. split; [done|]. split; [done|]. split; [done|].
    split; [done|].
    assert ((id, length (nodes st)) ∈ clientNodeMap st') as Hin.
    { rewrite Em. apply elem_of_app. right. by apply list_elem_of_singleton. }
    pose proof (JsMap_get_elem _ _ _ (inv_keys _ I') Hin) as Hg'.
    split; [apply JsMap_has_true; by eexists|].
    split; [rewrite Em, length_app; simpl; lia|].
    rewrite getValue_eq, Hg'. simpl. rewrite objOfNode_val, Enew. simpl.
    rewrite Eo, lookup_app_r by done. by rewrite Nat.sub_diag.
Qed.

Lemma updated_fields rsn csn ts nk md o :
  referenceSequenceNumber (updated rsn csn ts nk md o) = rsn ∧
  clientSequenceNumber (updated rsn csn ts nk md o) = csn ∧
  lastUpdate (updated rsn csn ts nk md o) = ts ∧
  nack (updated rsn csn ts nk md o) = nk ∧
  serverMetadata (updated rsn csn ts nk md o)
  = (if truthy md then md else serverMetadata o) ∧
  scopes (updated rsn csn ts nk md o) = scopes o ∧
  canEvict (updated rsn csn ts nk md o) = canEvict o.
Proof. unfold updated. by destruct (truthy md). Qed.

(** C2. In every state the manager can reach, [upsertClient(clientId, ...)]
    returns [true] exactly when [clientId] was not tracked. It then tracks a
    new entry made of the arguments, and [count()] grows by one. For a
    tracked [clientId] it returns [false], [get(clientId)] is the same object
    as before, [count()] is unchanged, and the object's
    [referenceSequenceNumber], [clientSequenceNumber], [lastUpdate] and
    [nack] are the supplied values. *)
Theorem upsertClient_insert_or_update (ops : list Op) (st : State) (id : string)
    (csn rsn ts : Z) (ce : bool) (sc : option loc) (nk : bool) (md : JsValue) :
  run ops init_state = Some st →
  ∃ r st' c, upsertClient id csn rsn ts ce sc nk md st = Some (r, st') ∧
    result (has id) st = Some (negb r) ∧
    result (has id) st' = Some true ∧
    result count st = Some c ∧
    if r then
      result count st' = Some (S c) ∧
      getValue id st'
      = Some (mkClient ce (Some id) csn ts nk rsn (entered_scopes sc st) md)
    else
      result count st' = Some c ∧
      result (get id) st' = result (get id) st ∧
      ∃ o', getValue id st' = Some o' ∧
            referenceSequenceNumber o' = rsn ∧ clientSequenceNumber o' = csn ∧
            lastUpdate o' = ts ∧ nack o' = nk.
Proof.
  intros Hrun. pose proof (run_init_Inv _ _ Hrun) as I.
  destruct (upsertClient_Inv st id csn rsn ts ce sc nk md I) as (r & st' & E & I' & _ & H).
  exists r, st', (length (clientNodeMap st)). split; [done|].
  rewrite !has_result, !count_result.
  destruct (JsMap.has id (clientNodeMap st)) eqn:Hhas.
  - destruct H as (-> & Em & Eg & o & Ho & Ho').
    split; [done|]. split; [by rewrite Em, Hhas|]. split; [done|].
    split; [by rewrite Em|]. split; [done|].
    eexists. split; [done|].
    by destruct (updated_fields rsn csn ts nk md o) as (? & ? & ? & ? & _).
  - destruct H as (-> & Hhas' & Hlen & Hv).
    split; [done|]. split; [by rewrite Hhas'|]. split; [done|].
    split; [by rewrite Hlen|done].
Qed.

(** The second scenario of the spec: ["X"] is inserted, then updated. *)
Lemma upsertClient_insert_or_update_witness :
  ∃ st, run [Upsert "X" 1 0 100 true None false JUndefined] init_state = Some st ∧
  ∃ r st' c, upsertClient "X" 2 3 101 true None false JUndefined st = Some (r, st') ∧
    result (has "X") st = Some (negb r) ∧
    result (has "X") st' = Some true ∧
    result count st = Some c ∧
    if r then
      result count st' = Some (S c) ∧
      getValue "X" st'
      = Some (mkClient true (Some "X") 2 101 false 3 (entered_scopes None st) JUndefined)
    else
      result count st' = Some c ∧
      result (get "X") st' = result (get "X") st ∧
      ∃ o', getValue "X" st' = Some o' ∧
            referenceSequenceNumber o' = 3%Z ∧ clientSequenceNumber o' = 2%Z ∧
            lastUpdate o' = 101%Z ∧ nack o' = false.
Proof.
  eexists. split; [reflexivity|].
  apply (upsertClient_insert_or_update [Upsert "X" 1 0 100 true None false JUndefined]).
  reflexivity.
Defined.

Example scenario_upsert_twice :
  (st ← run [Upsert "X" 1 0 100 true None false JUndefined] init_state;
   '(r, st') ← upsertClient "X" 2 3 101 true None false JUndefined st;
   o ← getValue "X" st';
   Some (r, referenceSequenceNumber o)) = Some (false, 3%Z).
Proof. reflexivity. Qed.

(** C3. In every state the manager can reach, [removeClient(clientId)]
    returns whether [clientId] was tracked. For an untracked id the state is
    left as it was; for a tracked id [count()] drops by exactly one and
    [has(clientId)] is [false] afterwards. The call never throws. *)
Theorem removeClient_result (ops : list Op) (st : State) (id : string) :
  run ops init_state = Some st →
  ∃ r st', removeClient id st = Some (r, st') ∧
    result (has id) st = Some r ∧
    if r then
      (∃ c, result count st = Some (S c) ∧ result count st' = Some c) ∧
      result (has id) st' = Some false
    else st' = st.
Proof.
  intros Hrun. pose proof (run_init_Inv _ _ Hrun) as I.
  rewrite has_result.
  destruct (JsMap.has id (clientNodeMap st)) eqn:Hhas.
  - apply JsMap_has_true in Hhas as [n Hg].
    destruct (remove_tracked_spec st id n I Hg) as (st' & E & I' & Em & _).
    exists true, st'. split; [done|]. split; [done|]. split.
    + exists (length (clientNodeMap st')). rewrite !count_result, Em.
      by rewrite (JsMap_delete_length _ _ _ Hg).
    + rewrite has_result. f_equal. apply JsMap_has_false, JsMap_get_None.
      rewrite Em. by apply JsMap_delete_keys, (inv_keys _ I).
  - apply JsMap_has_false in Hhas.
    exists false, st. by rewrite remove_untracked_spec.
Qed.

Lemma removeClient_result_witness :
  ∃ st, run [ups "A" 5; ups "B" 2] init_state = Some st ∧
  (∃ r st', removeClient "A" st = Some (r, st') ∧
    result (has "A") st = Some r ∧
    if r then
      (∃ c, result count st = Some (S c) ∧ result count st' = Some c) ∧
      result (has "A") st' = Some false
    else st' = st) ∧
  (∃ r st', removeClient "Z" st = Some (r, st') ∧
    result (has "Z") st = Some r ∧
    if r then
      (∃ c, result count st = Some (S c) ∧ result count st' = Some c) ∧
      result (has "Z") st' = Some false
    else st' = st).
Proof.
  eexists. split; [reflexivity|].
  split; apply (removeClient_result [ups "A" 5; ups "B" 2]); reflexivity.
Defined.

Example scenario_remove :
  (st ← run [ups "A" 5; ups "B" 2] init_state;
   '(r1, st1) ← removeClient "A" st;
   '(r2, st2) ← removeClient "A" st1;
   c ← result count st2;
   Some (r1, r2, c)) = Some (true, false, 1).
Proof. reflexivity. Qed.

(** ** One entry per client *)

Lemma step_upsert_eq id csn rsn ts ce sc nk md st :
  step (Upsert id csn rsn ts ce sc nk md) st
  = upsertClient id csn rsn ts ce (passed sc st).1 nk md (passed sc st).2.
Proof. by destruct sc. Qed.

Lemma Inv_passed sc st : Inv st → Inv (passed sc st).2.
Proof.
  destruct sc; [|done]. intros [[] ? ? ? ? ?]. split; [split|..]; assumption.
Qed.

Lemma passed_clientNodeMap sc st : clientNodeMap (passed sc st).2 = clientNodeMap st.
Proof. by destruct sc. Qed.

Lemma Inv_entries_distinct st k1 k2 o1 o2 :
  Inv st → 1 ≤ k1 → 1 ≤ k2 →
  entryAt st k1 = Some o1 → entryAt st k2 = Some o2 →
  clientId o1 = clientId o2 → k1 = k2.
Proof.
  intros I P1 P2 E1 E2 Hid. unfold entryAt in E1, E2.
  destruct (L st !! k1) as [n1|] eqn:H1; [|done].
  destruct (L st !! k2) as [n2|] eqn:H2; [|done]. simpl in E1, E2.
  destruct (inv_heap _ I n1) as [id1 Hin1]; [by exists k1|].
  destruct (inv_heap _ I n2) as [id2 Hin2]; [by exists k2|].
  destruct (inv_map _ I _ _ Hin1) as [_ (o1' & Ho1 & Hid1)].
  destruct (inv_map _ I _ _ Hin2) as [_ (o2' & Ho2 & Hid2)].
  assert (id1 = id2) as -> by congruence.
  pose proof (JsMap_get_elem _ _ _ (inv_keys _ I) Hin1).
  pose proof (JsMap_get_elem _ _ _ (inv_keys _ I) Hin2).
  assert (n1 = n2) as -> by congruence.
  by apply (wf_slot_inj st k1 k2 n2 (inv_wf _ I)).
Qed.

Lemma run_upserts ops : ∀ st,
  Inv st → forallb is_upsert ops = true → NoDup (op_clientId <$> ops) →
  (∀ id, id ∈ op_clientId <$> ops → id ∉ trackedIds st) →
  ∃ st', run ops st = Some st' ∧
         length (clientNodeMap st') = length (clientNodeMap st) + length ops.
Proof.
  induction ops as [|op ops IH]; intros st I Hup ND Hfresh; simpl.
  - exists st. split; [done|lia].
  - simpl in Hup. apply andb_prop in Hup as [Hop Hup].
    destruct op as [id csn rsn ts ce sc nk md|]; [|done].
    simpl in ND. apply NoDup_cons in ND as [Hid ND].
    rewrite step_upsert_eq.
    assert (JsMap.get id (clientNodeMap (passed sc st).2) = None) as Hg.
    { rewrite passed_clientNodeMap. apply JsMap_get_None. apply Hfresh. by left. }
    destruct (upsert_new_spec _ id csn rsn ts ce (passed sc st).1 nk md
                (Inv_passed sc st I) Hg) as (st1 & -> & I1 & Em & _).
    rewrite passed_clientNodeMap in Em.
    destruct (IH st1 I1 Hup ND) as (st' & E' & Hlen).
    { intros id' Hid'. unfold trackedIds. rewrite Em, fmap_app. simpl.
      apply not_elem_of_app. split.
      - apply Hfresh. by right.
      - intros H. apply list_elem_of_singleton in H. by subst. }
    exists st'. split; [done|]. rewrite Hlen, Em, length_app. simpl. lia.
Qed.

(** C4. After every sequence of calls the manager holds at most one entry per
    [clientId]: no key occurs twice in the map, no two slots of the heap hold
    entries with the same [clientId], and the heap holds as many entries as
    the map has keys. Consequently, after calls of [upsertClient] only, for
    pairwise different ids, [count()] is the number of ids inserted. *)
Theorem one_entry_per_clientId (ops : list Op) :
  ∃ st, run ops init_state = Some st ∧
    NoDup (trackedIds st) ∧
    (∀ k1 k2 o1 o2, 1 ≤ k1 → 1 ≤ k2 →
       entryAt st k1 = Some o1 → entryAt st k2 = Some o2 →
       clientId o1 = clientId o2 → k1 = k2) ∧
    result count st = Some (length (trackedIds st)) ∧
    result Heap.count st = result count st ∧
    (forallb is_upsert ops = true → NoDup (op_clientId <$> ops) →
     result count st = Some (length ops)).
Proof.
  destruct (run_Inv ops init_state Inv_init) as (st & E & I).
  exists st. split; [done|]. split; [by destruct I|].
  split; [intros ????; by apply Inv_entries_distinct|].
  split; [unfold trackedIds; by rewrite length_fmap|].
  split.
  { unfold result, Heap.count, count, JsMap.size. simpl. f_equal.
    pose proof (inv_size _ I). lia. }
  intros Hup ND.
  destruct (run_upserts ops init_state Inv_init Hup ND) as (st' & E' & Hlen).
  { intros id _ H. inversion H. }
  rewrite count_result. f_equal. simpl in Hlen. congruence.
Qed.

Lemma one_entry_per_clientId_witness :
  ∃ st, run [ups "A" 5; ups "B" 2; ups "C" 9] init_state = Some st ∧
        NoDup (trackedIds st) ∧ result count st = Some 3.
Proof.
  destruct (one_entry_per_clientId [ups "A" 5; ups "B" 2; ups "C" 9])
    as (st & E & ND & _ & _ & _ & H).
  exists st. split; [exact E|]. split; [exact ND|].
  apply H; [reflexivity|]. simpl.
  repeat (apply NoDup_cons; split;
          [rewrite ?not_elem_of_cons; repeat split; (discriminate || apply not_elem_of_nil)|]).
  apply NoDup_nil_2.
Defined.

(** ** Server metadata and scopes *)

(** C5. For a tracked client, [upsertClient] replaces the stored
    [serverMetadata] by the supplied value exactly when that value is truthy
    (the source's [if (serverMetadata)]: everything except [undefined],
    [null], [false], [0], [NaN] and the empty string) and leaves it as it was
    otherwise; an omitted value never clears it. *)
Theorem upsertClient_serverMetadata (ops : list Op) (st : State) (id : string)
    (csn rsn ts : Z) (ce : bool) (sc : option loc) (nk : bool) (md : JsValue) :
  run ops init_state = Some st →
  result (has id) st = Some true →
  ∃ st' o o', getValue id st = Some o ∧
    upsertClient id csn rsn ts ce sc nk md st = Some (false, st') ∧
    getValue id st' = Some o' ∧
    serverMetadata o' = (if truthy md then md else serverMetadata o) ∧
    (md = JUndefined → serverMetadata o' = serverMetadata o).
Proof.
  intros Hrun Hhas. pose proof (run_init_Inv _ _ Hrun) as I.
  rewrite has_result in Hhas. injection Hhas as Hhas.
  destruct (upsertClient_Inv st id csn rsn ts ce sc nk md I) as (r & st' & E & _ & _ & H).
  rewrite Hhas in H. destruct H as (-> & _ & _ & o & Ho & Ho').
  exists st', o, (updated rsn csn ts nk md o). split; [done|]. split; [done|].
  split; [done|].
  destruct (updated_fields rsn csn ts nk md o) as (_ & _ & _ & _ & Hmd & _).
  split; [done|]. intros ->. by rewrite Hmd.
Qed.

Lemma upsertClient_serverMetadata_witness :
  ∃ st, run [Upsert "X" 1 0 100 true None false (JString "m1")] init_state = Some st ∧
  (∃ st' o o', getValue "X" st = Some o ∧
    upsertClient "X" 2 3 101 true None false (JString "m2") st = Some (false, st') ∧
    getValue "X" st' = Some o' ∧
    serverMetadata o' = (if truthy (JString "m2") then JString "m2" else serverMetadata o) ∧
    (JString "m2" = JUndefined → serverMetadata o' = serverMetadata o)) ∧
  (∃ st' o o', getValue "X" st = Some o ∧
    upsertClient "X" 2 3 101 true None false JUndefined st = Some (false, st') ∧
    getValue "X" st' = Some o' ∧
    serverMetadata o' = (if truthy JUndefined then JUndefined else serverMetadata o) ∧
    (JUndefined = JUndefined → serverMetadata o' = serverMetadata o)).
Proof.
  eexists. split; [reflexivity|].
  split;
    apply (upsertClient_serverMetadata [Upsert "X" 1 0 100 true None false (JString "m1")]);
    reflexivity.
Defined.

(** A falsy value that the caller does pass, such as [0] or the empty
    string, is ignored like an omitted one. *)
Example serverMetadata_falsy_ignored :
  (st ← run [Upsert "X" 1 0 100 true None false (JString "m1");
             Upsert "X" 2 3 101 true None false (JNumber 0);
             Upsert "X" 3 4 102 true None false (JString "")] init_state;
   serverMetadata <$> getValue "X" st) = Some (JString "m1").
Proof. reflexivity. Qed.

(** ["X"] joins with one scope and is updated with another: the first stays. *)
Lemma scopes_follow_last_call_fails : ¬ scopes_follow_last_call.
Proof.
  intros H.
  specialize (H [Upsert "X" 1 0 100 true (Some ["doc:read"]) false JUndefined]
                _ "X" 2%Z 3%Z 101%Z true ["doc:write"] false JUndefined _ _
                eq_refl eq_refl eq_refl).
  vm_compute in H. discriminate H.
Qed.

Lemma JsMap_get_app k k0 v0 (m : list (string * loc)) :
  JsMap.get k (m ++ [(k0, v0)])
  = match JsMap.get k m with
    | Some v => Some v
    | None => if decide (k0 = k) then Some v0 else None
    end.
Proof.
  induction m as [|[k' v'] m IH]; simpl; by repeat case_decide.
Qed.

(** After [upsertClient], a tracked entry has the [scopes] it had before,
    unless it is the entry the call inserted. *)
Lemma upsertClient_scopes_kept st id csn rsn ts ce sc nk md r st' :
  Inv st → upsertClient id csn rsn ts ce sc nk md st = Some (r, st') →
  ∀ id' o', getValue id' st' = Some o' →
    (∃ o, getValue id' st = Some o ∧ scopes o' = scopes o) ∨
    (id' = id ∧ r = true ∧ scopes o' = entered_scopes sc st).
Proof.
  intros I E id' o' Ho'.
  destruct (JsMap.get id (clientNodeMap st)) as [n|] eqn:Hg.
  - destruct (upsert_existing_spec st id csn rsn ts ce sc nk md n I Hg)
      as (st1 & nd & o & Hnd & Ho & E1 & _ & Em & Eo & _ & Ev).
    assert (st1 = st') as -> by congruence. left.
    assert (value nd < length (objs st)) as Hv by eauto using lookup_lt_Some.
    rewrite getValue_eq, Em in Ho'. rewrite getValue_eq.
    destruct (JsMap.get id' (clientNodeMap st)) as [n'|]; [|done]. simpl in *.
    rewrite (objOfNode_insert st st' _ _ n' Hv Eo (Ev n')) in Ho'.
    case_decide as V; [|by exists o'].
    injection Ho' as <-. exists o. rewrite objOfNode_val, V. simpl. split; [done|].
    by destruct (updated_fields rsn csn ts nk md o) as (_ & _ & _ & _ & _ & ? & _).
  - destruct (upsert_new_spec st id csn rsn ts ce sc nk md I Hg)
      as (st1 & E1 & _ & Em & Eo & _ & Ev & Enew).
    assert (st1 = st') as -> by congruence.
    rewrite getValue_eq, Em, JsMap_get_app in Ho'. rewrite getValue_eq.
    destruct (JsMap.get id' (clientNodeMap st)) as [n'|] eqn:Hg'; simpl in *.
    + left. destruct (inv_map _ I id' n' (JsMap_get_Some_elem _ _ _ Hg'))
        as [(k & _ & Hk) (o & Ho & _)].
      exists o'. split; [|done]. rewrite <-Ho'. symmetry.
      rewrite !objOfNode_val, Ev by eauto using wf_node_lt, inv_wf.
      rewrite objOfNode_val in Ho.
      destruct (valOf st n') as [v|]; [|done]. simpl in *.
      rewrite Eo. rewrite Ho. by apply lookup_app_l_Some.
    + case_decide as Eid; [|done]. simpl in Ho'. right. subst id'.
      split; [done|]. split; [congruence|].
      rewrite objOfNode_val, Enew in Ho'. simpl in Ho'.
      rewrite Eo, lookup_app_r in Ho' by done. rewrite Nat.sub_diag in Ho'.
      by injection Ho' as <-.
Qed.

Lemma removeClient_values_kept st id r st' :
  Inv st → removeClient id st = Some (r, st') →
  arrs st' = arrs st ∧
  ∀ id' o', getValue id' st' = Some o' → getValue id' st = Some o'.
Proof.
  intros I E.
  destruct (JsMap.get id (clientNodeMap st)) as [n|] eqn:Hg.
  - destruct (remove_tracked_spec st id n I Hg) as (st1 & E1 & _ & Em & Eo & Ea & Ev).
    assert (st1 = st') as -> by congruence. split; [done|].
    intros id' o'. rewrite !getValue_eq, Em.
    destruct (JsMap.get id' (JsMap.delete id (clientNodeMap st))) as [n'|] eqn:Hg';
      [|done].
    apply JsMap_get_Some_elem, JsMap_delete_elem in Hg' as [Hin _];
      [|by apply (inv_keys _ I)].
    rewrite (JsMap_get_elem _ _ _ (inv_keys _ I) Hin). simpl.
    by rewrite (objOfNode_frame st st' n' Eo (Ev n')).
  - rewrite remove_untracked_spec in E by done. by injection E as _ <-.
Qed.

Lemma step_scopes_allocated op st r st' :
  Inv st → scopes_allocated st → step op st = Some (r, st') → scopes_allocated st'.
Proof.
  intros I V E. destruct op as [id csn rsn ts ce sc nk md|id].
  - rewrite step_upsert_eq in E.
    destruct (upsertClient_Inv _ id csn rsn ts ce (passed sc st).1 nk md (Inv_passed sc st I))
      as (r1 & st1 & E1 & _ & Ea & _).
    assert (st1 = st') as -> by congruence.
    assert (length (arrs st) ≤ length (arrs st')) as Hle.
    { rewrite Ea. destruct sc; simpl; rewrite ?length_app; simpl; lia. }
    intros id' o' Ho'.
    destruct (upsertClient_scopes_kept _ id csn rsn ts ce _ nk md r st'
                (Inv_passed sc st I) E id' o' Ho') as [(o & Ho & ->)|(_ & _ & ->)].
    + assert (getValue id' st = Some o) as Ho0.
      { rewrite getValue_eq in Ho |- *. by destruct sc. }
      specialize (V id' o Ho0). lia.
    + rewrite Ea. destruct sc; simpl; rewrite ?length_app; simpl; lia.
  - simpl in E. destruct (removeClient_values_kept st id r st' I E) as [Ea Hv].
    intros id' o' Ho'. rewrite Ea. by apply (V id'), Hv.
Qed.

Lemma run_scopes_allocated ops : ∀ st st',
  Inv st → scopes_allocated st → run ops st = Some st' → scopes_allocated st'.
Proof.
  induction ops as [|op ops IH]; intros st st' I V E; simpl in E.
  - by injection E as <-.
  - destruct (step_Inv op st I) as (r & st1 & E1 & I1). rewrite E1 in E.
    apply (IH st1 st' I1); [|done]. by apply (step_scopes_allocated op st r).
Qed.

Lemma init_scopes_allocated : scopes_allocated init_state.
Proof. intros id o H. done. Qed.

(** C9, amended. [upsertClient] stores the supplied scopes only when it
    inserts the client; for a tracked client the [scopes] argument is ignored
    and the stored scopes stay those of the insertion. *)
Theorem scopes_fixed_at_insertion (ops : list Op) (st : State) (id : string)
    (csn rsn ts : Z) (ce : bool) (sc : option (list string)) (nk : bool) (md : JsValue) :
  run ops init_state = Some st →
  ∃ r st', step (Upsert id csn rsn ts ce sc nk md) st = Some (r, st') ∧
    result (has id) st = Some (negb r) ∧
    if r then getScopes id st' = Some (default [] sc)
    else is_Some (getScopes id st) ∧ getScopes id st' = getScopes id st.
Proof.
  intros Hrun. pose proof (run_init_Inv _ _ Hrun) as I.
  pose proof (run_scopes_allocated ops _ _ Inv_init init_scopes_allocated Hrun) as V.
  rewrite step_upsert_eq.
  destruct (upsertClient_Inv _ id csn rsn ts ce (passed sc st).1 nk md (Inv_passed sc st I))
    as (r & st' & E & _ & Ea & H).
  exists r, st'. split; [done|]. rewrite has_result.
  rewrite passed_clientNodeMap in H.
  destruct (JsMap.has id (clientNodeMap st)) eqn:Hhas.
  - destruct H as (-> & _ & _ & o & Ho & Ho'). split; [done|].
    assert (getValue id st = Some o) as Ho0.
    { rewrite getValue_eq in Ho |- *. by destruct sc. }
    destruct (updated_fields rsn csn ts nk md o) as (_ & _ & _ & _ & _ & Hsc & _).
    pose proof (V id o Ho0) as Hlt. apply lookup_lt_is_Some in Hlt as [ys Hys].
    unfold getScopes. rewrite Ho0, Ho'. simpl. rewrite Hsc, Ea, Hys.
    split; [by eexists|].
    destruct sc; simpl; repeat apply lookup_app_l_Some; done.
  - destruct H as (-> & _ & _ & Hv). split; [done|].
    unfold getScopes. rewrite Hv. simpl. rewrite Ea.
    destruct sc; simpl.
    + rewrite lookup_app_r by done. by rewrite Nat.sub_diag.
    + rewrite lookup_app_r by done. by rewrite Nat.sub_diag.
Qed.

Lemma scopes_fixed_at_insertion_witness :
  ∃ st, run [Upsert "X" 1 0 100 true (Some ["doc:read"]) false JUndefined] init_state
        = Some st ∧
  ∃ r st', step (Upsert "X" 2 3 101 true (Some ["doc:write"]) false JUndefined) st
           = Some (r, st') ∧
    result (has "X") st = Some (negb r) ∧
    if r then getScopes "X" st' = Some (default [] (Some ["doc:write"]))
    else is_Some (getScopes "X" st) ∧ getScopes "X" st' = getScopes "X" st.
Proof.
  eexists. split; [reflexivity|].
  apply (scopes_fixed_at_insertion
           [Upsert "X" 1 0 100 true (Some ["doc:read"]) false JUndefined]).
  reflexivity.
Defined.

Example scopes_after_update :
  (st ← run [Upsert "X" 1 0 100 true (Some ["doc:read"]) false JUndefined;
             Upsert "X" 2 3 101 true (Some ["doc:write"]) false JUndefined] init_state;
   getScopes "X" st) = Some ["doc:read"].
Proof. reflexivity. Qed.

(** ** cloneValues *)

Lemma Forall2_objOfNode_alloc (es : list (string * loc)) srcs st o :
  (∀ id n, (id, n) ∈ es → is_Some (objOfNode st n)) →
  Forall2 (λ e x, objOfNode (set_objs (λ os, os ++ [o]) st) e.2 = Some x) es srcs →
  Forall2 (λ e x, objOfNode st e.2 = Some x) es srcs.
Proof.
  intros Hsrc HF. induction HF as [|[id n] x es srcs Hx HF IH]; constructor.
  - simpl in *. destruct (Hsrc id n) as [x' Hx']; [by left|].
    pose proof (objOfNode_alloc st o n x' Hx'). congruence.
  - apply IH. intros id' n' Hin. apply (Hsrc id'). by right.
Qed.

Lemma cloneValues_loop_spec es : ∀ acc st,
  (∀ id n, (id, n) ∈ es → is_Some (objOfNode st n)) →
  ∃ srcs,
    Forall2 (λ e o, objOfNode st e.2 = Some o) es srcs ∧
    cloneValues_loop es acc st
    = Some (acc ++ seq (length (objs st)) (length es), set_objs (λ os, os ++ srcs) st).
Proof.
  induction es as [|[id n] es IH]; intros acc st Hsrc; simpl.
  - exists []. split; [constructor|]. unfold ret. rewrite app_nil_r. do 2 f_equal.
    destruct st. unfold set_objs. simpl. by rewrite app_nil_r.
  - destruct (Hsrc id n) as [o Ho]; [by left|].
    pose proof Ho as Ho'. unfold objOfNode in Ho'.
    destruct (nodes st !! n) as [nd|] eqn:Hnd; [|done]. simpl in Ho'.
    set (st1 := set_objs (λ os, os ++ [o]) st).
    destruct (IH (acc ++ [length (objs st)]) st1) as (srcs & HF & E).
    { intros id' n' Hin. destruct (Hsrc id' n') as [o' Ho'']; [by right|].
      exists o'. by apply objOfNode_alloc. }
    exists (o :: srcs). split.
    + constructor; [done|]. apply (Forall2_objOfNode_alloc es srcs st o); [|done].
      intros id' n' Hin. apply (Hsrc id'). by right.
    + mstep ltac:(by apply getNode_spec).
      mstep ltac:(by apply getObj_spec).
      mstep ltac:(reflexivity).
      fold st1. rewrite E. f_equal. f_equal.
      * rewrite <-app_assoc. simpl. do 3 f_equal.
        unfold st1. simpl. rewrite length_app. simpl. lia.
      * unfold st1, set_objs. simpl. by rewrite <-app_assoc.
Qed.

Lemma clones_hold_values st (es : list (string * loc)) srcs pre :
  Forall2 (λ e o, objOfNode st e.2 = Some o) es srcs →
  (∀ e, e ∈ es → JsMap.get e.1 (clientNodeMap st) = Some e.2) →
  (λ c, (objs st ++ pre ++ srcs) !! c) <$> seq (length (objs st) + length pre) (length es)
  = (λ id, getValue id st) <$> es.*1.
Proof.
  intros HF. revert pre.
  induction HF as [|[id n] o es srcs Ho HF IH]; intros pre Hget; [done|].
  simpl. f_equal.
  - rewrite lookup_app_r by lia. rewrite lookup_app_r by lia.
    replace (length (objs st) + length pre - length (objs st) - length pre) with 0 by lia.
    simpl. rewrite getValue_eq.
    pose proof (Hget (id, n)) as Hg. simpl in Hg. rewrite Hg by (by left). done.
  - specialize (IH (pre ++ [o])). rewrite length_app in IH. simpl in IH.
    rewrite <-app_assoc in IH. simpl in IH.
    replace (S (length (objs st) + length pre))
      with (length (objs st) + (length pre + 1)) by lia.
    apply IH. intros e He. apply Hget. by right.
Qed.

Lemma cloneValues_Inv st :
  Inv st →
  ∃ clones st',
    cloneValues st = Some (clones, st') ∧ same_inside st st' ∧
    clones = seq (length (objs st)) (length (trackedIds st)) ∧
    (λ c, objs st' !! c) <$> clones = (λ id, getValue id st) <$> trackedIds st.
Proof.
  intros I.
  destruct (cloneValues_loop_spec (clientNodeMap st) [] st) as (srcs & HF & E).
  { intros id n Hin. destruct (inv_map _ I _ _ Hin) as [_ (o & -> & _)]. by eexists. }
  eexists _, _. split; [exact E|]. split; [|split].
  - split; try done. intros l Hl. simpl. by rewrite lookup_app_l.
  - unfold trackedIds. by rewrite length_fmap.
  - pose proof (clones_hold_values st (clientNodeMap st) srcs [] HF) as H.
    simpl in *. rewrite Nat.add_0_r in H. apply H.
    intros [id n] Hin. simpl. apply JsMap_get_elem; [apply (inv_keys _ I)|done].
Qed.

Lemma peek_result st :
  result peek st
  = match L st !! 1 with
    | None => Some None
    | Some n => Some <$> valOf st n
    end.
Proof.
  unfold result, peek, bind, Heap.peek, valOf.
  destruct (L st !! 1) as [n|]; [|done].
  unfold getNode, lift. by destruct (nodes st !! n).
Qed.

Lemma getMinimumSequenceNumber_result st :
  result getMinimumSequenceNumber st
  = if 0 <? length (L st) - 1
    then n ← L st !! 1; o ← objOfNode st n; Some (referenceSequenceNumber o)
    else Some (-1)%Z.
Proof.
  unfold result, getMinimumSequenceNumber, bind, Heap.count, Heap.peek, objOfNode.
  destruct (0 <? length (L st) - 1); [|done].
  destruct (L st !! 1) as [n|]; [|done]. simpl.
  unfold getNode, getObj, lift. destruct (nodes st !! n) as [nd|]; [|done]. simpl.
  by destruct (objs st !! value nd).
Qed.

Lemma same_inside_node st st' k n :
  Inv st → same_inside st st' → L st !! k = Some n →
  ∃ v, valOf st n = Some v ∧ valOf st' n = Some v ∧
       objs st' !! v = objs st !! v ∧ view st' v = view st v ∧
       objOfNode st' n = objOfNode st n.
Proof.
  intros I [Sn Sl Sm Sa So] Hk.
  destruct (wf_node _ (inv_wf _ I) _ _ Hk) as (nd & Hnd & _ & Hv).
  apply lookup_lt_is_Some in Hv. exists (value nd).
  unfold valOf, view, objOfNode. rewrite Sn, Hnd, Sa. simpl.
  rewrite (So _ Hv). done.
Qed.

Lemma same_inside_observe st st' :
  Inv st → same_inside st st' →
  (∀ id, observe (get id) st' = observe (get id) st) ∧
  observe peek st' = observe peek st ∧
  result getMinimumSequenceNumber st' = result getMinimumSequenceNumber st.
Proof.
  intros I S. pose proof S as [Sn Sl Sm Sa So]. split; [|split].
  - intros id. unfold observe. rewrite !get_result, Sm.
    destruct (JsMap.get id (clientNodeMap st)) as [n|] eqn:Hg; [|done].
    destruct (inv_map _ I id n (JsMap_get_Some_elem _ _ _ Hg)) as [(k & _ & Hk) _].
    destruct (same_inside_node st st' k n I S Hk) as (v & -> & -> & _ & Hview & _).
    simpl. by rewrite Hview.
  - unfold observe. rewrite !peek_result, Sl.
    destruct (L st !! 1) as [n|] eqn:Hk; [|done].
    destruct (same_inside_node st st' 1 n I S Hk) as (v & -> & -> & _ & Hview & _).
    simpl. by rewrite Hview.
  - rewrite !getMinimumSequenceNumber_result, Sl.
    destruct (0 <? length (L st) - 1); [|done].
    destruct (L st !! 1) as [n|] eqn:Hk; [|done]. simpl.
    by destruct (same_inside_node st st' 1 n I S Hk) as (v & _ & _ & _ & _ & ->).
Qed.

Lemma mutate_same_inside st returned m x x' :
  same_inside st x.2 → (∀ c, c ∈ returned → length (objs st) ≤ c) →
  shallow m = true → mutate returned m x = Some x' → same_inside st x'.2.
Proof.
  intros S Hret Hm E. destruct m as [i l|l| |i o|i s]; simpl in E; try done;
    try (injection E as <-; done).
  destruct (returned !! i) as [c|] eqn:Hc; [|done]. simpl in E.
  destruct (objs x.2 !! c) as [oc|]; [|done]. simpl in E. injection E as <-.
  destruct S as [Sn Sl Sm Sa So]. split; try done. simpl. intros l Hl.
  rewrite list_lookup_insert_ne; [by apply So|].
  assert (length (objs st) ≤ c) by (apply Hret; by eapply list_elem_of_lookup_2). lia.
Qed.

Lemma mutate_all_same_inside st returned ms : ∀ x x',
  same_inside st x.2 → (∀ c, c ∈ returned → length (objs st) ≤ c) →
  forallb shallow ms = true → mutate_all returned ms x = Some x' → same_inside st x'.2.
Proof.
  induction ms as [|m ms IH]; intros x x' S Hret Hms E; simpl in *.
  - by injection E as <-.
  - apply andb_prop in Hms as [Hm Hms].
    destruct (mutate returned m x) as [x1|] eqn:E1; [|done].
    apply (IH x1 x'); [|done|done|done]. by apply (mutate_same_inside st returned m x).
Qed.

(** The copy is one level deep: a clone's [scopes] is the tracked object's
    array, and a push through the clone shows through [get]. *)
Lemma cloneValues_isolated_fails : ¬ cloneValues_isolated.
Proof.
  intros H.
  destruct (H [Upsert "A" 1 5 100 true (Some ["doc:read"]) false JUndefined]
              _ _ _ [ElemScopesPush 0 "doc:write"] _ _ eq_refl eq_refl eq_refl)
    as (Hget & _).
  specialize (Hget "A"). vm_compute in Hget. discriminate Hget.
Qed.

Example cloneValues_shares_scopes :
  (st ← run [Upsert "A" 1 5 100 true (Some ["doc:read"]) false JUndefined] init_state;
   '(clones, st1) ← cloneValues st;
   '(_, st2) ← mutate_all clones [ElemScopesPush 0 "doc:write"] (clones, st1);
   Some (getScopes "A" st, getScopes "A" st2))
  = Some (Some ["doc:read"], Some ["doc:read"; "doc:write"]).
Proof. reflexivity. Qed.

(** C8, amended. In every state the manager can reach, [cloneValues()]
    returns an array of objects that did not exist before the call, pairwise
    different, one per tracked client in the map's order and with that
    client's fields. Whatever the caller then does to the array, and whatever
    it assigns to the fields of those objects, [get], [peek] and
    [getMinimumSequenceNumber] answer as before the call. (The copies are one
    level deep: nothing is said of changes made inside a [scopes] array.) *)
Theorem cloneValues_copies (ops : list Op) (st : State) :
  run ops init_state = Some st →
  ∃ clones st1,
    cloneValues st = Some (clones, st1) ∧
    Forall (λ c, objs st !! c = None) clones ∧
    NoDup clones ∧
    (λ c, objs st1 !! c) <$> clones = (λ id, getValue id st) <$> trackedIds st ∧
    ∀ ms sq st2,
      forallb shallow ms = true →
      mutate_all clones ms (clones, st1) = Some (sq, st2) →
      (∀ id, observe (get id) st2 = observe (get id) st) ∧
      observe peek st2 = observe peek st ∧
      result getMinimumSequenceNumber st2 = result getMinimumSequenceNumber st.
Proof.
  intros Hrun. pose proof (run_init_Inv _ _ Hrun) as I.
  destruct (cloneValues_Inv st I) as (clones & st1 & E & S & Hclones & Hvals).
  exists clones, st1. split; [done|].
  assert (∀ c, c ∈ clones → length (objs st) ≤ c) as Hnew.
  { intros c Hc. rewrite Hclones in Hc. apply elem_of_seq in Hc. lia. }
  split; [|split; [|split; [done|]]].
  - apply Forall_forall. intros c Hc. apply lookup_ge_None. by apply Hnew.
  - rewrite Hclones. apply NoDup_seq.
  - intros ms sq st2 Hms Emut. apply same_inside_observe; [done|].
    by apply (mutate_all_same_inside st clones ms (clones, st1) (sq, st2)).
Qed.

Lemma cloneValues_copies_witness :
  ∃ st, run [ups "A" 5; ups "B" 2] init_state = Some st ∧
  ∃ clones st1,
    cloneValues st = Some (clones, st1) ∧
    Forall (λ c, objs st !! c = None) clones ∧
    NoDup clones ∧
    (λ c, objs st1 !! c) <$> clones = (λ id, getValue id st) <$> trackedIds st ∧
    ∀ ms sq st2,
      forallb shallow ms = true →
      mutate_all clones ms (clones, st1) = Some (sq, st2) →
      (∀ id, observe (get id) st2 = observe (get id) st) ∧
      observe peek st2 = observe peek st ∧
      result getMinimumSequenceNumber st2 = result getMinimumSequenceNumber st.
Proof.
  eexists. split; [reflexivity|].
  apply (cloneValues_copies [ups "A" 5; ups "B" 2]). reflexivity.
Defined.

(** Overwriting every field of the clone of ["B"], the client with the least
    reference sequence number, and shortening the array changes nothing. *)
Example cloneValues_assign_unobserved :
  (st ← run [ups "A" 5; ups "B" 2] init_state;
   '(clones, st1) ← cloneValues st;
   '(sq, st2) ← mutate_all clones [ElemAssign 1 comparer_min; SeqPop] (clones, st1);
   Some (clones, sq,
         bool_decide (result getMinimumSequenceNumber st2 = Some 2%Z),
         referenceSequenceNumber <$> getValue "B" st2))
  = Some ([3; 4], [3], true, Some 2%Z).
Proof. vm_compute. reflexivity. Qed.

(** ** The checkpoint manager *)

Section CheckpointManagerProperties.

Context {IDeliState IQueuedMessage IDocumentRepository ICheckpointRepository World : Type}.
Variables (tenantId documentId : string).
Variable documentRepository : IDocumentRepository.
Variable checkpointRepository : ICheckpointRepository.
Variable checkpointService : @ICheckpointService IDeliState World.

Let manager : @IDeliCheckpointManager IDeliState IQueuedMessage World :=
  createDeliCheckpointManagerFromCollection tenantId documentId documentRepository
    checkpointRepository checkpointService.

(** C6, amended. [writeCheckpoint(checkpoint, isLocal, reason)] issues
    exactly one service call,
    [writeCheckpointToCollection(documentId, tenantId, "deli", checkpoint, isLocal)]:
    the payload and the tier reach the storage call, which determines both;
    the reason does not: the run is the same for every [reason]. *)
Theorem writeCheckpoint_forwards_payload_and_tier
    (checkpoint : IDeliState) (isLocal : bool) (r : CheckpointReason) (w : World) :
  issued (writeCheckpoint manager checkpoint isLocal r w)
  = [writeCheckpointToCollection documentId tenantId "deli" checkpoint isLocal] ∧
  (∀ r', writeCheckpoint manager checkpoint isLocal r' w
         = writeCheckpoint manager checkpoint isLocal r w) ∧
  (∀ checkpoint' isLocal' r' w',
     issued (writeCheckpoint manager checkpoint' isLocal' r' w')
     = issued (writeCheckpoint manager checkpoint isLocal r w) →
     checkpoint' = checkpoint ∧ isLocal' = isLocal).
Proof.
  assert (∀ c l r0 w0, issued (writeCheckpoint manager c l r0 w0)
          = [writeCheckpointToCollection documentId tenantId "deli" c l]) as E.
  { intros c l r0 w0. unfold manager. simpl. unfold async, call. simpl.
    by destruct (checkpointService _ w0). }
  split; [apply E|]. split; [done|].
  intros c' l' r' w'. rewrite !E. intros H. by injection H.
Qed.

(** C7. The promise [writeCheckpoint] returns is rejected exactly when the
    call of [writeCheckpointToCollection] fails, by a throw or by returning a
    promise that is rejected, and then with the same error; it is fulfilled
    exactly when that call's promise is. The world is left as the call
    leaves it. *)
Theorem writeCheckpoint_propagates_failure
    (checkpoint : IDeliState) (isLocal : bool) (r : CheckpointReason) (w : World) :
  let underlying :=
    checkpointService
      (writeCheckpointToCollection documentId tenantId "deli" checkpoint isLocal) w in
  let run := writeCheckpoint manager checkpoint isLocal r w in
  rejection (outcome run) = failure underlying.1 ∧
  (∀ e, outcome run = Rejected e ↔
        underlying.1 = Throw e ∨ underlying.1 = Return (Rejected e)) ∧
  (∀ v, outcome run = Fulfilled v ↔ underlying.1 = Return (Fulfilled v)) ∧
  after run = underlying.2.
Proof.
  unfold manager. simpl. unfold async, call.
  destruct (checkpointService _ w) as [[[v|e|]|e] w']; simpl;
    (split; [done|]); (split; [|split; [|done]]); intros x; split; intros H;
    first [ congruence
          | left; congruence
          | right; congruence
          | destruct H as [H|H]; congruence ].
Qed.

(** C10. [deleteCheckpoint] does not look at its [checkpointParams]: for any
    two values of it and the same tier flag the runs are the same, and the
    one call issued is
    [removeCheckpointFromCollection(documentId, tenantId, "deli", isLocal)]. *)
Theorem deleteCheckpoint_ignores_params
    (p1 p2 : ICheckpointParams) (isLocal : bool) (w : World) :
  deleteCheckpoint manager p1 isLocal w = deleteCheckpoint manager p2 isLocal w ∧
  issued (deleteCheckpoint manager p1 isLocal w)
  = [removeCheckpointFromCollection documentId tenantId "deli" isLocal].
Proof.
  split; [done|]. unfold manager. simpl. unfold async, call.
  by destruct (checkpointService _ w).
Qed.

End CheckpointManagerProperties.

(** Two writes that differ in the reason only issue the same call. *)
Lemma writeCheckpoint_drops_reason : ¬ writeCheckpoint_forwards_everything.
Proof.
  intros H.
  destruct (H unit unit unit unit "tenant" "doc" tt tt
              (λ _ w, (Return (Fulfilled JUndefined), w))
              tt tt false false BatchBoundary Shutdown tt eq_refl) as (_ & _ & E).
  discriminate E.
Qed.

(** * Further properties of the manager *)

(** ** Tracked entries *)

Lemma Inv_tracked_node st id n :
  Inv st → JsMap.get id (clientNodeMap st) = Some n →
  ∃ k nd o, 1 ≤ k ∧ L st !! k = Some n ∧ nodes st !! n = Some nd ∧
            objs st !! value nd = Some o ∧ clientId o = Some id ∧
            valOf st n = Some (value nd) ∧ objOfNode st n = Some o.
Proof.
  intros I Hg.
  destruct (inv_map _ I id n (JsMap_get_Some_elem _ _ _ Hg)) as [(k & Pk & Hk) (o & Ho & Hid)].
  destruct (wf_node _ (inv_wf _ I) _ _ Hk) as (nd & Hnd & _ & _).
  exists k, nd, o. unfold valOf. rewrite Hnd. simpl.
  pose proof Ho as Ho'. unfold objOfNode in Ho'. rewrite Hnd in Ho'. done.
Qed.

Lemma Inv_values_distinct st id1 id2 n1 n2 v :
  Inv st →
  JsMap.get id1 (clientNodeMap st) = Some n1 → JsMap.get id2 (clientNodeMap st) = Some n2 →
  valOf st n1 = Some v → valOf st n2 = Some v → id1 = id2.
Proof.
  intros I H1 H2 V1 V2.
  destruct (Inv_tracked_node st id1 n1 I H1) as (k1 & nd1 & o1 & _ & Hk1 & _ & _ & Hid1 & _ & Ho1).
  destruct (Inv_tracked_node st id2 n2 I H2) as (k2 & nd2 & o2 & _ & Hk2 & _ & _ & Hid2 & _ & Ho2).
  assert (k1 = k2) as -> by (by apply (wf_value_inj _ (inv_wf _ I) k1 k2 n1 n2 v)).
  congruence.
Qed.

Lemma JsMap_has_get k (m : list (string * loc)) :
  JsMap.has k m = bool_decide (is_Some (JsMap.get k m)).
Proof. done. Qed.

Lemma JsMap_get_delete_ne k k' (m : list (string * loc)) :
  k' ≠ k → JsMap.get k' (JsMap.delete k m) = JsMap.get k' m.
Proof.
  intros NE. induction m as [|[k0 v0] m IH]; simpl; [done|].
  repeat (case_decide; simpl; subst); done.
Qed.

Lemma getValue_get id st :
  getValue id st
  = match result (get id) st with
    | Some (Some l) => objs st !! l
    | _ => None
    end.
Proof.
  unfold getValue, result. destruct (get id st) as [[[l|] st']|]; done.
Qed.

(** ** What a call leaves alone *)

Lemma upsertClient_others st id csn rsn ts ce sc nk md r st' :
  Inv st → upsertClient id csn rsn ts ce sc nk md st = Some (r, st') →
  ∀ id', id' ≠ id →
    JsMap.has id' (clientNodeMap st') = JsMap.has id' (clientNodeMap st) ∧
    result (get id') st' = result (get id') st ∧
    getValue id' st' = getValue id' st.
Proof.
  intros I E id' NE.
  destruct (JsMap.get id (clientNodeMap st)) as [n|] eqn:Hg.
  - destruct (upsert_existing_spec st id csn rsn ts ce sc nk md n I Hg)
      as (st1 & nd & o & Hnd & Ho & E1 & _ & Em & Eo & _ & Ev).
    assert (st1 = st') as -> by congruence.
    rewrite !get_result, !getValue_eq, Em. split; [done|].
    destruct (JsMap.get id' (clientNodeMap st)) as [n'|] eqn:Hg'; [|done].
    rewrite Ev. split; [done|]. simpl.
    assert (value nd < length (objs st)) as Hv by eauto using lookup_lt_Some.
    rewrite (objOfNode_insert st st' _ _ n' Hv Eo (Ev n')).
    rewrite decide_False; [done|]. intros V. apply NE.
    apply (Inv_values_distinct st id' id n' n (value nd) I Hg' Hg V).
    unfold valOf. by rewrite Hnd.
  - destruct (upsert_new_spec st id csn rsn ts ce sc nk md I Hg)
      as (st1 & E1 & _ & Em & Eo & _ & Ev & _).
    assert (st1 = st') as -> by congruence.
    rewrite !get_result, !getValue_eq, !JsMap_has_get, Em, JsMap_get_app.
    destruct (JsMap.get id' (clientNodeMap st)) as [n'|] eqn:Hg'.
    + split; [done|].
      destruct (Inv_tracked_node st id' n' I Hg') as (k & nd & o & _ & Hk & _ & Ho & _ & V & Hobj).
      assert (n' < length (nodes st)) by eauto using wf_node_lt, inv_wf.
      rewrite Ev by done. split; [done|]. simpl.
      rewrite objOfNode_val, Ev, V by done. simpl. rewrite Hobj, Eo.
      by apply lookup_app_l_Some.
    + by rewrite decide_False by done.
Qed.

Lemma removeClient_others st id r st' :
  Inv st → removeClient id st = Some (r, st') →
  arrs st' = arrs st ∧
  ∀ id', id' ≠ id →
    JsMap.has id' (clientNodeMap st') = JsMap.has id' (clientNodeMap st) ∧
    result (get id') st' = result (get id') st ∧
    getValue id' st' = getValue id' st.
Proof.
  intros I E.
  destruct (JsMap.get id (clientNodeMap st)) as [n|] eqn:Hg.
  - destruct (remove_tracked_spec st id n I Hg) as (st1 & E1 & _ & Em & Eo & Ea & Ev).
    assert (st1 = st') as -> by congruence. split; [done|]. intros id' NE.
    rewrite !get_result, !getValue_eq, !JsMap_has_get, Em, JsMap_get_delete_ne by done.
    split; [done|].
    destruct (JsMap.get id' (clientNodeMap st)) as [n'|]; [|done].
    rewrite Ev. split; [done|]. simpl. by apply objOfNode_frame.
  - rewrite remove_untracked_spec in E by done. by injection E as _ <-.
Qed.

Lemma observe_get_eq st st' id :
  result (get id) st' = result (get id) st →
  getValue id st' = getValue id st →
  (∀ o, getValue id st = Some o → arrs st' !! scopes o = arrs st !! scopes o) →
  observe (get id) st' = observe (get id) st.
Proof.
  intros Eg Ev Ea. unfold observe. rewrite !getValue_get, Eg in *.
  destruct (result (get id) st) as [[l|]|]; [|done|done]. simpl in *.
  unfold view. rewrite Ev. destruct (objs st !! l) as [o|] eqn:Ho; [|done]. simpl.
  by rewrite (Ea o).
Qed.

Lemma arrs_entered_lookup sc st l :
  l < length (arrs st) → arrs (entered sc st) !! l = arrs st !! l.
Proof. intros Hl. destruct sc; simpl; [done|]. by rewrite lookup_app_l. Qed.

(** X1. In every state the manager can reach, [get(clientId)] is
    [undefined] exactly when [has(clientId)] is [false]; for a tracked client
    it is an object whose [clientId] is the one asked for, and no other
    client's [get] gives that object. *)
Theorem get_returns_own_object (ops : list Op) (st : State) (id : string) :
  run ops init_state = Some st →
  ∃ b, result (has id) st = Some b ∧
    if b then
      ∃ l o, result (get id) st = Some (Some l) ∧ objs st !! l = Some o ∧
             clientId o = Some id ∧
             ∀ id', result (get id') st = Some (Some l) → id' = id
    else result (get id) st = Some None.
Proof.
  intros Hrun. pose proof (run_init_Inv _ _ Hrun) as I.
  exists (JsMap.has id (clientNodeMap st)). split; [done|].
  destruct (JsMap.has id (clientNodeMap st)) eqn:Hhas.
  - apply JsMap_has_true in Hhas as [n Hg].
    destruct (Inv_tracked_node st id n I Hg) as (k & nd & o & _ & _ & _ & Ho & Hid & V & _).
    exists (value nd), o. rewrite get_result, Hg, V. split; [done|]. split; [done|].
    split; [done|]. intros id' Hg'. rewrite get_result in Hg'.
    destruct (JsMap.get id' (clientNodeMap st)) as [n'|] eqn:Hgn; [|done].
    destruct (valOf st n') as [v|] eqn:V'; [|done]. injection Hg' as ->.
    by apply (Inv_values_distinct st id' id n' n (value nd) I).
  - apply JsMap_has_false in Hhas. by rewrite get_result, Hhas.
Qed.

Lemma get_returns_own_object_witness :
  ∃ st, run [ups "A" 5; ups "B" 2] init_state = Some st ∧
  (∃ b, result (has "B") st = Some b ∧
    if b then
      ∃ l o, result (get "B") st = Some (Some l) ∧ objs st !! l = Some o ∧
             clientId o = Some "B" ∧
             ∀ id', result (get id') st = Some (Some l) → id' = "B"
    else result (get "B") st = Some None).
Proof.
  eexists. split; [reflexivity|].
  apply (get_returns_own_object [ups "A" 5; ups "B" 2]). reflexivity.
Defined.

(** X2. In every state the manager can reach, [peek()] is [undefined]
    exactly when [count()] is 0 (and the minimum is then [-1]); otherwise it
    is the object of a tracked client, the one [get] gives for that client,
    its [referenceSequenceNumber] is what [getMinimumSequenceNumber()]
    returns, and no tracked client has a smaller one. *)
Theorem peek_least_client (ops : list Op) (st : State) :
  run ops init_state = Some st →
  ∃ c, result count st = Some c ∧
    match c with
    | 0 => result peek st = Some None ∧
           result getMinimumSequenceNumber st = Some (-1)%Z
    | S _ =>
        ∃ l o id, result peek st = Some (Some l) ∧
          result (get id) st = Some (Some l) ∧
          objs st !! l = Some o ∧ clientId o = Some id ∧
          result getMinimumSequenceNumber st = Some (referenceSequenceNumber o) ∧
          ∀ id' o', getValue id' st = Some o' →
            (referenceSequenceNumber o ≤ referenceSequenceNumber o')%Z
    end.
Proof.
  intros Hrun. pose proof (run_init_Inv _ _ Hrun) as I.
  exists (length (clientNodeMap st)). split; [done|].
  pose proof (inv_size _ I) as Hsize.
  rewrite peek_result, getMinimumSequenceNumber_result.
  destruct (length (clientNodeMap st)) as [|c] eqn:Hc.
  - rewrite (lookup_ge_None_2 (L st) 1) by lia.
    by replace (length (L st) - 1) with 0 by lia.
  - destruct (wf_entry st 1 (inv_wf _ I)) as (n & nd & o & Hn & Hnd & _ & Ho & He & R);
      [lia|].
    destruct (inv_heap _ I n) as [id Hin]; [exists 1; by split|].
    pose proof (JsMap_get_elem _ _ _ (inv_keys _ I) Hin) as Hg.
    exists (value nd), o, id. rewrite Hn, get_result, Hg. unfold valOf. rewrite Hnd.
    split; [done|]. split; [done|]. split; [done|].
    destruct (Inv_tracked_node st id n I Hg) as (_ & _ & o0 & _ & _ & _ & _ & Hid & _ & Hobj).
    assert (objOfNode st n = Some o) as Hobj' by (unfold objOfNode; by rewrite Hnd).
    split; [congruence|]. split.
    + destruct (Nat.ltb_spec 0 (length (L st) - 1)); [|lia]. simpl. by rewrite Hobj'.
    + intros id' o' Hv. rewrite getValue_eq in Hv.
      destruct (JsMap.get id' (clientNodeMap st)) as [n'|] eqn:Hg'; [|done]. simpl in Hv.
      destruct (Inv_tracked_node st id' n' I Hg') as (k & _ & _ & Pk & Hk & _).
      assert (refAt st k = referenceSequenceNumber o') as <-.
      { unfold refAt, entryAt. rewrite Hk. simpl. by rewrite Hv. }
      rewrite <-R. apply heap_ok_root with (len := length (L st));
        [apply (inv_ok _ I)|done|eauto using lookup_lt_Some].
Qed.

Lemma peek_least_client_witness :
  ∃ st, run [ups "A" 5; ups "B" 2; ups "C" 9] init_state = Some st ∧
  ∃ c, result count st = Some c ∧
    match c with
    | 0 => result peek st = Some None ∧
           result getMinimumSequenceNumber st = Some (-1)%Z
    | S _ =>
        ∃ l o id, result peek st = Some (Some l) ∧
          result (get id) st = Some (Some l) ∧
          objs st !! l = Some o ∧ clientId o = Some id ∧
          result getMinimumSequenceNumber st = Some (referenceSequenceNumber o) ∧
          ∀ id' o', getValue id' st = Some o' →
            (referenceSequenceNumber o ≤ referenceSequenceNumber o')%Z
    end.
Proof.
  eexists. split; [reflexivity|].
  apply (peek_least_client [ups "A" 5; ups "B" 2; ups "C" 9]). reflexivity.
Defined.

(** X3. In every state the manager can reach, [upsertClient(clientId, ...)]
    leaves every other client as it was: [has] answers the same, [get] gives
    the same object, with the same fields and the same scopes. *)
Theorem upsertClient_leaves_others (ops : list Op) (st : State) (id : string)
    (csn rsn ts : Z) (ce : bool) (sc : option loc) (nk : bool) (md : JsValue) :
  run ops init_state = Some st →
  ∃ r st', upsertClient id csn rsn ts ce sc nk md st = Some (r, st') ∧
    ∀ id', id' ≠ id →
      result (has id') st' = result (has id') st ∧
      observe (get id') st' = observe (get id') st.
Proof.
  intros Hrun. pose proof (run_init_Inv _ _ Hrun) as I.
  pose proof (run_scopes_allocated ops _ _ Inv_init init_scopes_allocated Hrun) as V.
  destruct (upsertClient_Inv st id csn rsn ts ce sc nk md I) as (r & st' & E & _ & Ea & _).
  exists r, st'. split; [done|]. intros id' NE.
  destruct (upsertClient_others st id csn rsn ts ce sc nk md r st' I E id' NE)
    as (Hh & Hg & Hv).
  split; [by rewrite !has_result, Hh|].
  apply observe_get_eq; [done|done|].
  intros o Ho. rewrite Ea. apply arrs_entered_lookup. by apply (V id').
Qed.

Lemma upsertClient_leaves_others_witness :
  ∃ st, run [Upsert "A" 1 5 100 true (Some ["doc:read"]) false JUndefined; ups "B" 2]
            init_state = Some st ∧
  ∃ r st', upsertClient "B" 7 8 101 false None true (JString "m") st = Some (r, st') ∧
    ∀ id', id' ≠ "B" →
      result (has id') st' = result (has id') st ∧
      observe (get id') st' = observe (get id') st.
Proof.
  eexists. split; [reflexivity|].
  apply (upsertClient_leaves_others
           [Upsert "A" 1 5 100 true (Some ["doc:read"]) false JUndefined; ups "B" 2]).
  reflexivity.
Defined.

(** X4. In every state the manager can reach, [removeClient(clientId)]
    leaves every other client as it was: [has] answers the same, [get] gives
    the same object, with the same fields and the same scopes. *)
Theorem removeClient_leaves_others (ops : list Op) (st : State) (id : string) :
  run ops init_state = Some st →
  ∃ r st', removeClient id st = Some (r, st') ∧
    ∀ id', id' ≠ id →
      result (has id') st' = result (has id') st ∧
      observe (get id') st' = observe (get id') st.
Proof.
  intros Hrun. pose proof (run_init_Inv _ _ Hrun) as I.
  destruct (step_Inv (Remove id) st I) as (r & st' & E & _). simpl in E.
  exists r, st'. split; [done|]. intros id' NE.
  destruct (removeClient_others st id r st' I E) as [Ea H].
  destruct (H id' NE) as (Hh & Hg & Hv).
  split; [by rewrite !has_result, Hh|].
  apply observe_get_eq; [done|done|]. intros o _. by rewrite Ea.
Qed.

Lemma removeClient_leaves_others_witness :
  ∃ st, run [Upsert "A" 1 5 100 true (Some ["doc:read"]) false JUndefined; ups "B" 2]
            init_state = Some st ∧
  ∃ r st', removeClient "B" st = Some (r, st') ∧
    ∀ id', id' ≠ "B" →
      result (has id') st' = result (has id') st ∧
      observe (get id') st' = observe (get id') st.
Proof.
  eexists. split; [reflexivity|].
  apply (removeClient_leaves_others
           [Upsert "A" 1 5 100 true (Some ["doc:read"]) false JUndefined; ups "B" 2]).
  reflexivity.
Defined.

(** X5. [upsertClient] stores its [canEvict] argument only when it inserts
    the client: for a tracked client the argument is ignored and the stored
    flag stays as it was. Either way the entry bears the [clientId] of the
    call. *)
Theorem canEvict_fixed_at_insertion (ops : list Op) (st : State) (id : string)
    (csn rsn ts : Z) (ce : bool) (sc : option loc) (nk : bool) (md : JsValue) :
  run ops init_state = Some st →
  ∃ r st' o', upsertClient id csn rsn ts ce sc nk md st = Some (r, st') ∧
    getValue id st' = Some o' ∧ clientId o' = Some id ∧
    if r then canEvict o' = ce
    else ∃ o, getValue id st = Some o ∧ canEvict o' = canEvict o.
Proof.
  intros Hrun. pose proof (run_init_Inv _ _ Hrun) as I.
  destruct (upsertClient_Inv st id csn rsn ts ce sc nk md I) as (r & st' & E & _ & _ & H).
  destruct (JsMap.has id (clientNodeMap st)) eqn:Hhas.
  - destruct H as (-> & _ & _ & o & Ho & Ho').
    exists false, st', (updated rsn csn ts nk md o). split; [done|]. split; [done|].
    apply JsMap_has_true in Hhas as [n Hg].
    destruct (Inv_tracked_node st id n I Hg) as (_ & _ & o0 & _ & _ & _ & _ & Hid & _ & Hobj).
    rewrite getValue_eq, Hg in Ho. simpl in Ho.
    rewrite updated_clientId. split; [congruence|].
    exists o. split; [by rewrite getValue_eq, Hg|].
    by destruct (updated_fields rsn csn ts nk md o) as (_ & _ & _ & _ & _ & _ & ?).
  - destruct H as (-> & _ & _ & Hv). by eexists true, st', _.
Qed.

Lemma canEvict_fixed_at_insertion_witness :
  ∃ st, run [Upsert "X" 1 0 100 false None false JUndefined] init_state = Some st ∧
  ∃ r st' o', upsertClient "X" 2 3 101 true None false JUndefined st = Some (r, st') ∧
    getValue "X" st' = Some o' ∧ clientId o' = Some "X" ∧
    if r then canEvict o' = true
    else ∃ o, getValue "X" st = Some o ∧ canEvict o' = canEvict o.
Proof.
  eexists. split; [reflexivity|].
  apply (canEvict_fixed_at_insertion [Upsert "X" 1 0 100 false None false JUndefined]).
  reflexivity.
Defined.

(** A client that joined as not evictable stays so, whatever later calls pass. *)
Example canEvict_after_update :
  (st ← run [Upsert "X" 1 0 100 false None false JUndefined;
             Upsert "X" 2 3 101 true None false JUndefined] init_state;
   canEvict <$> getValue "X" st) = Some false.
Proof. reflexivity. Qed.

(** ** How the minimum moves *)

Lemma trackedRefs_elem st y :
  y ∈ trackedRefs st ↔ ∃ id o, getValue id st = Some o ∧ referenceSequenceNumber o = y.
Proof.
  unfold trackedRefs. rewrite list_elem_of_omap. split.
  - intros (id & _ & H). destruct (getValue id st) as [o|] eqn:Ho; [|done].
    injection H as <-. by exists id, o.
  - intros (id & o & Ho & <-). exists id. split; [|by rewrite Ho].
    rewrite getValue_eq in Ho.
    destruct (JsMap.get id (clientNodeMap st)) as [n|] eqn:Hg; [|done].
    apply list_elem_of_fmap. exists (id, n). split; [done|].
    by apply JsMap_get_Some_elem.
Qed.

Lemma msn_char st m :
  Inv st → m ∈ trackedRefs st → (∀ y, y ∈ trackedRefs st → (m ≤ y)%Z) →
  result getMinimumSequenceNumber st = Some m.
Proof.
  intros I Hin Hle. pose proof (getMinimumSequenceNumber_Inv st I) as H.
  destruct (trackedRefs st) as [|r rs]; [by apply elem_of_nil in Hin|].
  rewrite H. f_equal. by apply foldr_min_unique.
Qed.

Lemma msn_exists st :
  Inv st →
  ∃ m, result getMinimumSequenceNumber st = Some m ∧
       (length (clientNodeMap st) = 0 → m = (-1)%Z) ∧
       (length (clientNodeMap st) ≠ 0 →
        m ∈ trackedRefs st ∧ ∀ y, y ∈ trackedRefs st → (m ≤ y)%Z).
Proof.
  intros I. pose proof (getMinimumSequenceNumber_Inv st I) as H.
  pose proof (trackedRefs_length st I) as Hlen. unfold trackedIds in Hlen.
  rewrite length_fmap in Hlen.
  destruct (trackedRefs st) as [|r rs]; simpl in Hlen.
  - exists (-1)%Z. split; [done|]. split; [done|]. intros. lia.
  - exists (foldr Z.min r rs). split; [done|]. split; [intros; lia|]. intros _.
    split; [apply foldr_min_elem|apply foldr_min_le].
Qed.

Lemma msn_same st st' :
  Inv st → Inv st' →
  length (clientNodeMap st') = length (clientNodeMap st) →
  (∀ y, y ∈ trackedRefs st' ↔ y ∈ trackedRefs st) →
  result getMinimumSequenceNumber st' = result getMinimumSequenceNumber st.
Proof.
  intros I I' Hlen Hel.
  destruct (msn_exists st I) as (m & -> & H0 & Hn).
  destruct (msn_exists st' I') as (m' & -> & H0' & Hn'). f_equal.
  destruct (length (clientNodeMap st)) as [|c] eqn:Hc.
  - rewrite H0, H0' by done. done.
  - destruct Hn as [Hin Hle]; [done|]. destruct Hn' as [Hin' Hle']; [lia|].
    pose proof (Hle m' (proj1 (Hel m') Hin')).
    pose proof (Hle' m (proj2 (Hel m) Hin)). lia.
Qed.

(** X6. When a client that is not tracked joins with reference sequence
    number [rsn], the minimum becomes [rsn] if no client was tracked, and the
    smaller of the old minimum and [rsn] otherwise. *)
Theorem minimum_after_join (ops : list Op) (st : State) (id : string)
    (csn rsn ts : Z) (ce : bool) (sc : option loc) (nk : bool) (md : JsValue) :
  run ops init_state = Some st →
  result (has id) st = Some false →
  ∃ st' c m, upsertClient id csn rsn ts ce sc nk md st = Some (true, st') ∧
    result count st = Some c ∧
    result getMinimumSequenceNumber st = Some m ∧
    result getMinimumSequenceNumber st'
    = Some (match c with 0 => rsn | S _ => Z.min m rsn end).
Proof.
  intros Hrun Hhas. pose proof (run_init_Inv _ _ Hrun) as I.
  rewrite has_result in Hhas. injection Hhas as Hhas.
  destruct (upsertClient_Inv st id csn rsn ts ce sc nk md I) as (r & st' & E & I' & _ & H).
  rewrite Hhas in H. destruct H as (-> & _ & _ & Hv).
  destruct (msn_exists st I) as (m & Hm & H0 & Hn).
  exists st', (length (clientNodeMap st)), m. split; [done|]. split; [done|].
  split; [done|].
  assert (∀ y, y ∈ trackedRefs st' ↔ y = rsn ∨ y ∈ trackedRefs st) as Hel.
  { intros y. rewrite !trackedRefs_elem. split.
    - intros (id' & o' & Ho' & <-). destruct (decide (id' = id)) as [->|NE].
      + left. rewrite Hv in Ho'. by injection Ho' as <-.
      + right. exists id', o'. split; [|done].
        by destruct (upsertClient_others _ _ _ _ _ _ _ _ _ _ _ I E id' NE) as (_ & _ & <-).
    - intros [->|(id' & o' & Ho' & <-)].
      + eexists id, _. by split.
      + exists id', o'. split; [|done].
        assert (id' ≠ id) as NE.
        { intros ->. apply JsMap_has_false in Hhas. by rewrite getValue_eq, Hhas in Ho'. }
        by destruct (upsertClient_others _ _ _ _ _ _ _ _ _ _ _ I E id' NE) as (_ & _ & ->). }
  apply msn_char; [done|..].
  - apply Hel. destruct (length (clientNodeMap st)) as [|c]; [by left|].
    destruct Hn as [Hin _]; [done|].
    destruct (Z.min_spec m rsn) as [[_ ->]|[_ ->]]; [by right|by left].
  - intros y Hy. apply Hel in Hy.
    destruct (length (clientNodeMap st)) as [|c] eqn:Hc.
    + destruct Hy as [->|Hy]; [lia|].
      pose proof (trackedRefs_length st I) as Hlen. unfold trackedIds in Hlen.
      rewrite length_fmap, Hc in Hlen.
      destruct (trackedRefs st); [by apply elem_of_nil in Hy|done].
    + destruct Hn as [_ Hle]; [done|]. destruct Hy as [->|Hy]; [lia|].
      specialize (Hle y Hy). lia.
Qed.

Lemma minimum_after_join_witness :
  ∃ st, run [ups "A" 5; ups "B" 7] init_state = Some st ∧
  ∃ st' c m, upsertClient "C" 0 3 0 true None false JUndefined st = Some (true, st') ∧
    result count st = Some c ∧
    result getMinimumSequenceNumber st = Some m ∧
    result getMinimumSequenceNumber st'
    = Some (match c with 0 => 3%Z | S _ => Z.min m 3 end).
Proof.
  eexists. split; [reflexivity|].
  apply (minimum_after_join [ups "A" 5; ups "B" 7]); reflexivity.
Defined.

(** X7. When a tracked client leaves, the minimum becomes [-1] if it was
    the only client; otherwise the minimum does not go down, and it stays
    the same if the client that left was above it. *)
Theorem minimum_after_leave (ops : list Op) (st : State) (id : string) :
  run ops init_state = Some st →
  result (has id) st = Some true →
  ∃ st' c m m' o, removeClient id st = Some (true, st') ∧
    result count st = Some (S c) ∧ getValue id st = Some o ∧
    result getMinimumSequenceNumber st = Some m ∧
    result getMinimumSequenceNumber st' = Some m' ∧
    match c with
    | 0 => m' = (-1)%Z
    | S _ => (m ≤ m')%Z ∧ ((m < referenceSequenceNumber o)%Z → m' = m)
    end.
Proof.
  intros Hrun Hhas. pose proof (run_init_Inv _ _ Hrun) as I.
  rewrite has_result in Hhas. injection Hhas as Hhas.
  apply JsMap_has_true in Hhas as [n Hg].
  destruct (remove_tracked_spec st id n I Hg) as (st' & E & I' & Em & _).
  destruct (Inv_tracked_node st id n I Hg) as (_ & _ & o & _ & _ & _ & _ & _ & _ & Hobj).
  assert (getValue id st = Some o) as Ho by (by rewrite getValue_eq, Hg).
  pose proof (JsMap_delete_length _ _ _ Hg) as Hlen. rewrite <-Em in Hlen.
  destruct (msn_exists st I) as (m & Hm & _ & Hn).
  destruct (msn_exists st' I') as (m' & Hm' & H0' & Hn').
  exists st', (length (clientNodeMap st')), m, m', o.
  split; [done|]. split; [by rewrite count_result, <-Hlen|]. split; [done|].
  split; [done|]. split; [done|].
  destruct (length (clientNodeMap st')) as [|c] eqn:Hc; [by apply H0'|].
  destruct Hn as [Hin Hle]; [lia|]. destruct Hn' as [Hin' Hle']; [done|].
  destruct (removeClient_others st id true st' I E) as [_ Hoth].
  assert (getValue id st' = None) as Hgone.
  { rewrite getValue_eq, Em.
    destruct (JsMap_delete_keys id (clientNodeMap st) (inv_keys _ I)) as [_ Hni].
    apply JsMap_get_None in Hni. by rewrite Hni. }
  assert (∀ y, y ∈ trackedRefs st' → y ∈ trackedRefs st) as Hsub.
  { intros y. rewrite !trackedRefs_elem. intros (id' & o' & Ho' & <-).
    destruct (decide (id' = id)) as [->|NE]; [congruence|].
    exists id', o'. split; [|done]. by destruct (Hoth id' NE) as (_ & _ & <-). }
  split; [by apply Hle, Hsub|]. intros Hlt.
  assert (m ∈ trackedRefs st') as Hm_in.
  { apply trackedRefs_elem in Hin as (id0 & o0 & Ho0 & Hr).
    assert (id0 ≠ id) as NE by (intros ->; assert (o0 = o) by congruence; subst; lia).
    apply trackedRefs_elem. exists id0, o0. split; [|done].
    by destruct (Hoth id0 NE) as (_ & _ & ->). }
  pose proof (Hle' m Hm_in). pose proof (Hle m' (Hsub m' Hin')). lia.
Qed.

Lemma minimum_after_leave_witness :
  ∃ st, run [ups "A" 5; ups "B" 2; ups "C" 9] init_state = Some st ∧
  ∃ st' c m m' o, removeClient "B" st = Some (true, st') ∧
    result count st = Some (S c) ∧ getValue "B" st = Some o ∧
    result getMinimumSequenceNumber st = Some m ∧
    result getMinimumSequenceNumber st' = Some m' ∧
    match c with
    | 0 => m' = (-1)%Z
    | S _ => (m ≤ m')%Z ∧ ((m < referenceSequenceNumber o)%Z → m' = m)
    end.
Proof.
  eexists. split; [reflexivity|].
  apply (minimum_after_leave [ups "A" 5; ups "B" 2; ups "C" 9]); reflexivity.
Defined.

(** X8. When a tracked client is updated to reference sequence number
    [rsn], the new minimum lies between the smaller of the old minimum and
    [rsn], and [rsn]. So the minimum does not go down when the client does
    not go back, and it does not move at all when the client was above the
    minimum and stays at or above it. *)
Theorem minimum_after_update (ops : list Op) (st : State) (id : string)
    (csn rsn ts : Z) (ce : bool) (sc : option loc) (nk : bool) (md : JsValue) :
  run ops init_state = Some st →
  result (has id) st = Some true →
  ∃ st' m m' o, upsertClient id csn rsn ts ce sc nk md st = Some (false, st') ∧
    getValue id st = Some o ∧
    result getMinimumSequenceNumber st = Some m ∧
    result getMinimumSequenceNumber st' = Some m' ∧
    (Z.min m rsn ≤ m')%Z ∧ (m' ≤ rsn)%Z ∧
    ((referenceSequenceNumber o ≤ rsn)%Z → (m ≤ m')%Z) ∧
    ((m < referenceSequenceNumber o)%Z → (m ≤ rsn)%Z → m' = m).
Proof.
  intros Hrun Hhas. pose proof (run_init_Inv _ _ Hrun) as I.
  rewrite has_result in Hhas. injection Hhas as Hhas.
  destruct (upsertClient_Inv st id csn rsn ts ce sc nk md I) as (r & st' & E & I' & _ & H).
  rewrite Hhas in H. destruct H as (-> & Em & _ & o & Ho & Ho').
  destruct (msn_exists st I) as (m & Hm & _ & Hn).
  destruct (msn_exists st' I') as (m' & Hm' & _ & Hn').
  exists st', m, m', o. split; [done|]. split; [done|]. split; [done|]. split; [done|].
  assert (length (clientNodeMap st) ≠ 0) as Hne.
  { apply JsMap_has_true in Hhas as [n Hg]. apply JsMap_get_Some_elem in Hg.
    destruct (clientNodeMap st); [by apply elem_of_nil in Hg|done]. }
  destruct Hn as [Hin Hle]; [done|]. destruct Hn' as [Hin' Hle']; [by rewrite Em|].
  destruct (updated_fields rsn csn ts nk md o) as (Hr & _).
  assert (rsn ∈ trackedRefs st') as Hrsn
    by (apply trackedRefs_elem; by eexists id, _).
  assert (referenceSequenceNumber o ∈ trackedRefs st) as Hold
    by (apply trackedRefs_elem; by exists id, o).
  assert (∀ y, y ∈ trackedRefs st' → y = rsn ∨ y ∈ trackedRefs st) as Hsub.
  { intros y. rewrite !trackedRefs_elem. intros (id' & o' & Hv' & <-).
    destruct (decide (id' = id)) as [->|NE].
    - left. rewrite Ho' in Hv'. by injection Hv' as <-.
    - right. exists id', o'. split; [|done].
      by destruct (upsertClient_others _ _ _ _ _ _ _ _ _ _ _ I E id' NE) as (_ & _ & <-). }
  assert (Z.min m rsn ≤ m')%Z as Hlow.
  { destruct (Hsub m' Hin') as [->|Hy]; [lia|]. specialize (Hle m' Hy). lia. }
  split; [done|]. split; [by apply Hle'|].
  split; [intros Hadv; specialize (Hle _ Hold); lia|].
  intros Hlt Hmr.
  assert (m ∈ trackedRefs st') as Hm_in.
  { apply trackedRefs_elem in Hin as (id0 & o0 & Ho0 & Hr0).
    assert (id0 ≠ id) as NE by (intros ->; assert (o0 = o) by congruence; subst; lia).
    apply trackedRefs_elem. exists id0, o0. split; [|done].
    by destruct (upsertClient_others _ _ _ _ _ _ _ _ _ _ _ I E id0 NE) as (_ & _ & ->). }
  specialize (Hle' m Hm_in). lia.
Qed.

Lemma minimum_after_update_witness :
  ∃ st, run [ups "A" 5; ups "B" 2; ups "C" 9] init_state = Some st ∧
  ∃ st' m m' o, upsertClient "B" 1 12 1 true None false JUndefined st = Some (false, st') ∧
    getValue "B" st = Some o ∧
    result getMinimumSequenceNumber st = Some m ∧
    result getMinimumSequenceNumber st' = Some m' ∧
    (Z.min m 12 ≤ m')%Z ∧ (m' ≤ 12)%Z ∧
    ((referenceSequenceNumber o ≤ 12)%Z → (m ≤ m')%Z) ∧
    ((m < referenceSequenceNumber o)%Z → (m ≤ 12)%Z → m' = m).
Proof.
  eexists. split; [reflexivity|].
  apply (minimum_after_update [ups "A" 5; ups "B" 2; ups "C" 9]); reflexivity.
Defined.

(** ** Joining and leaving again *)

(** X9. When a client that is not tracked is inserted and then removed,
    the manager answers as before the two calls: [count()] and
    [getMinimumSequenceNumber()] are the same, and for every client id, the
    one inserted included, [has] and [get] are the same. *)
Theorem join_then_leave (ops : list Op) (st : State) (id : string)
    (csn rsn ts : Z) (ce : bool) (sc : option loc) (nk : bool) (md : JsValue) :
  run ops init_state = Some st →
  result (has id) st = Some false →
  ∃ st1 st2, upsertClient id csn rsn ts ce sc nk md st = Some (true, st1) ∧
    removeClient id st1 = Some (true, st2) ∧
    result count st2 = result count st ∧
    (∀ id', result (has id') st2 = result (has id') st ∧
            observe (get id') st2 = observe (get id') st) ∧
    result getMinimumSequenceNumber st2 = result getMinimumSequenceNumber st.
Proof.
  intros Hrun Hhas. pose proof (run_init_Inv _ _ Hrun) as I.
  pose proof (run_scopes_allocated ops _ _ Inv_init init_scopes_allocated Hrun) as V.
  rewrite has_result in Hhas. injection Hhas as Hhas.
  destruct (upsertClient_Inv st id csn rsn ts ce sc nk md I) as (r & st1 & E1 & I1 & Ea1 & H).
  rewrite Hhas in H. destruct H as (-> & Hhas1 & Hlen1 & _).
  apply JsMap_has_true in Hhas1 as [n1 Hg1].
  destruct (remove_tracked_spec st1 id n1 I1 Hg1) as (st2 & E2 & I2 & Em2 & _ & Ea2 & _).
  pose proof (JsMap_delete_length _ _ _ Hg1) as Hlen2. rewrite <-Em2 in Hlen2.
  assert (length (clientNodeMap st2) = length (clientNodeMap st)) as Hlen by lia.
  destruct (JsMap_delete_keys id (clientNodeMap st1) (inv_keys _ I1)) as [_ Hni].
  rewrite <-Em2 in Hni. apply JsMap_get_None in Hni.
  pose proof Hhas as Hnone. apply JsMap_has_false in Hnone.
  assert (∀ id', JsMap.has id' (clientNodeMap st2) = JsMap.has id' (clientNodeMap st) ∧
                 result (get id') st2 = result (get id') st ∧
                 getValue id' st2 = getValue id' st) as Hall.
  { intros id'. destruct (decide (id' = id)) as [->|NE].
    - rewrite !get_result, !getValue_eq, !JsMap_has_get, Hni, Hnone. done.
    - destruct (upsertClient_others _ _ _ _ _ _ _ _ _ _ _ I E1 id' NE) as (Hh1 & Hr1 & Hv1).
      destruct (removeClient_others st1 id true st2 I1 E2) as [_ Hoth].
      destruct (Hoth id' NE) as (Hh2 & Hr2 & Hv2).
      split; [congruence|]. split; congruence. }
  exists st1, st2. split; [done|]. split; [done|].
  split; [by rewrite !count_result, Hlen|]. split.
  - intros id'. destruct (Hall id') as (Hh & Hr & Hv).
    split; [by rewrite !has_result, Hh|].
    apply observe_get_eq; [done|done|]. intros o Ho.
    rewrite Ea2, Ea1. apply arrs_entered_lookup. by apply (V id').
  - apply msn_same; [done|done|done|]. intros y. rewrite !trackedRefs_elem.
    split; intros (id' & o & Ho & <-); exists id', o; (split; [|done]);
      destruct (Hall id') as (_ & _ & Hv); congruence.
Qed.

Lemma join_then_leave_witness :
  ∃ st, run [ups "A" 5; ups "B" 7] init_state = Some st ∧
  ∃ st1 st2, upsertClient "C" 0 3 0 true None false JUndefined st = Some (true, st1) ∧
    removeClient "C" st1 = Some (true, st2) ∧
    result count st2 = result count st ∧
    (∀ id', result (has id') st2 = result (has id') st ∧
            observe (get id') st2 = observe (get id') st) ∧
    result getMinimumSequenceNumber st2 = result getMinimumSequenceNumber st.
Proof.
  eexists. split; [reflexivity|].
  apply (join_then_leave [ups "A" 5; ups "B" 7]); reflexivity.
Defined.

(** ** Calls after [cloneValues] *)

Lemma same_inside_Inv st st' : Inv st → same_inside st st' → Inv st'.
Proof.
  intros I S. pose proof S as [Sn Sl Sm Sa So].
  assert (∀ n, valOf st' n = valOf st n) as Hval
    by (intros n; unfold valOf; by rewrite Sn).
  assert (∀ n, inHeap st' n ↔ inHeap st n) as Hheap
    by (intros n; unfold inHeap; by rewrite Sl).
  assert (∀ k n, L st !! k = Some n → objOfNode st' n = objOfNode st n) as Hobj.
  { intros k n Hk. by destruct (same_inside_node st st' k n I S Hk) as (_ & _ & _ & _ & _ & ?). }
  destruct I as [W O K Sz M H]. split.
  - split.
    + rewrite Sl. by destruct W.
    + intros k n Hk. rewrite Sl in Hk.
      destruct (wf_node _ W _ _ Hk) as (nd & Hnd & P & Ho).
      exists nd. rewrite Sn. split; [done|]. split; [done|].
      apply lookup_lt_is_Some in Ho. rewrite (So _ Ho). by apply lookup_lt_is_Some.
    + intros k1 k2 n1 n2 v. rewrite Sl, !Hval. by apply (wf_value_inj _ W).
  - rewrite Sl. apply (heap_ok_ext _ (refAt st)); [|done].
    intros i Hi. unfold refAt, entryAt. rewrite Sl.
    destruct (L st !! i) as [n|] eqn:Hn; [|done]. simpl. by rewrite (Hobj i n Hn).
  - by rewrite Sm.
  - by rewrite Sm, Sl.
  - intros id n Hin. rewrite Sm in Hin. destruct (M id n Hin) as [Hh Ho].
    split; [by apply Hheap|]. destruct Hh as (k & _ & Hk). by rewrite (Hobj k n Hk).
  - intros n Hn. rewrite Sm. by apply H, Hheap.
Qed.

(** X10. In every state the manager can reach, [cloneValues()] returns
    [count()] objects, the [i]-th of which bears the [clientId] of the [i]-th
    client in the order of first insertion. After the call, and after any
    changes the caller makes to the returned array and to the fields of its
    objects, every further sequence of calls still returns, and
    [getMinimumSequenceNumber()] is still the least tracked
    [referenceSequenceNumber], or [-1]. *)
Theorem calls_after_cloneValues (ops : list Op) (st : State) :
  run ops init_state = Some st →
  ∃ clones st1,
    cloneValues st = Some (clones, st1) ∧
    result count st = Some (length clones) ∧
    (λ c, clientId <$> objs st1 !! c) <$> clones
    = (λ id, Some (Some id)) <$> trackedIds st ∧
    ∀ ms sq st2 ops',
      forallb shallow ms = true →
      mutate_all clones ms (clones, st1) = Some (sq, st2) →
      ∃ st3, run ops' st2 = Some st3 ∧
        match trackedRefs st3 with
        | [] => result getMinimumSequenceNumber st3 = Some (-1)%Z
        | r :: rs => result getMinimumSequenceNumber st3 = Some (foldr Z.min r rs)
        end.
Proof.
  intros Hrun. pose proof (run_init_Inv _ _ Hrun) as I.
  destruct (cloneValues_Inv st I) as (clones & st1 & E & S & Hclones & Hvals).
  exists clones, st1. split; [done|]. split; [|split].
  - rewrite count_result, Hclones, length_seq. unfold trackedIds. by rewrite length_fmap.
  - transitivity ((fmap clientId) <$> ((λ c, objs st1 !! c) <$> clones)).
    { rewrite <-list_fmap_compose. done. }
    rewrite Hvals, <-list_fmap_compose. apply list_fmap_ext.
    intros i id Hid. simpl.
    destruct (Inv_getValue st id I) as (_ & _ & o & _ & _ & _ & -> & _ & Hcid);
      [by eapply list_elem_of_lookup_2|]. simpl. by rewrite Hcid.
  - intros ms sq st2 ops' Hms Emut.
    assert (same_inside st st2) as S2.
    { apply (mutate_all_same_inside st clones ms (clones, st1) (sq, st2)); try done.
      intros c Hc. rewrite Hclones in Hc. apply elem_of_seq in Hc. lia. }
    destruct (run_Inv ops' st2 (same_inside_Inv st st2 I S2)) as (st3 & E3 & I3).
    exists st3. split; [done|]. by apply getMinimumSequenceNumber_Inv.
Qed.

Lemma calls_after_cloneValues_witness :
  ∃ st, run [ups "A" 5; ups "B" 2] init_state = Some st ∧
  ∃ clones st1,
    cloneValues st = Some (clones, st1) ∧
    result count st = Some (length clones) ∧
    (λ c, clientId <$> objs st1 !! c) <$> clones
    = (λ id, Some (Some id)) <$> trackedIds st ∧
    ∀ ms sq st2 ops',
      forallb shallow ms = true →
      mutate_all clones ms (clones, st1) = Some (sq, st2) →
      ∃ st3, run ops' st2 = Some st3 ∧
        match trackedRefs st3 with
        | [] => result getMinimumSequenceNumber st3 = Some (-1)%Z
        | r :: rs => result getMinimumSequenceNumber st3 = Some (foldr Z.min r rs)
        end.
Proof.
  eexists. split; [reflexivity|].
  apply (calls_after_cloneValues [ups "A" 5; ups "B" 2]). reflexivity.
Defined.

(** ** The manager as a table *)

Lemma omap_keys {A} (f : string → option (string * A)) (l : list string) :
  (∀ x, x ∈ l → ∃ e, f x = Some (x, e)) → (omap f l).*1 = l.
Proof.
  induction l as [|a l IH]; intros H; [done|].
  destruct (H a) as [e E]; [by left|]. simpl. rewrite E. simpl. f_equal.
  apply IH. intros x Hx. apply H. by right.
Qed.

Lemma omap_pointwise {A B C} (f : A → option B) (f' : A → option C) (g : B → C)
    (l : list A) :
  (∀ x, x ∈ l → f' x = g <$> f x) → omap f' l = g <$> omap f l.
Proof.
  induction l as [|a l IH]; intros H; [done|].
  assert (omap f' l = g <$> omap f l) as IH' by (apply IH; intros x Hx; apply H; by right).
  assert (f' a = g <$> f a) as Ha by (apply H; by left).
  change (omap f' (a :: l)) with (from_option (λ y, y :: omap f' l) (omap f' l) (f' a)).
  change (omap f (a :: l)) with (from_option (λ y, y :: omap f l) (omap f l) (f a)).
  rewrite Ha, IH'. by destruct (f a).
Qed.

Lemma omap_ext_in {A B} (f f' : A → option B) (l : list A) :
  (∀ x, x ∈ l → f' x = f x) → omap f' l = omap f l.
Proof.
  induction l as [|a l IH]; intros H; [done|].
  assert (omap f' l = omap f l) as IH' by (apply IH; intros x Hx; apply H; by right).
  assert (f' a = f a) as Ha by (apply H; by left).
  change (omap f' (a :: l)) with (from_option (λ y, y :: omap f' l) (omap f' l) (f' a)).
  change (omap f (a :: l)) with (from_option (λ y, y :: omap f l) (omap f l) (f a)).
  by rewrite Ha, IH'.
Qed.

Lemma filter_ne_absent (k : string) (l : list string) :
  k ∉ l → filter (λ x, x ≠ k) l = l.
Proof.
  induction l as [|a l IH]; intros H; [done|].
  apply not_elem_of_cons in H as [NE H].
  rewrite filter_cons_True by done. by rewrite IH.
Qed.

Lemma omap_filter_keys {A} (f : string → option (string * A)) (k : string)
    (l : list string) :
  (∀ x, x ∈ l → ∃ e, f x = Some (x, e)) →
  omap f (filter (λ x, x ≠ k) l) = filter (λ row, row.1 ≠ k) (omap f l).
Proof.
  induction l as [|a l IH]; intros H; [done|].
  destruct (H a) as [e E]; [by left|].
  assert (omap f (filter (λ x, x ≠ k) l) = filter (λ row, row.1 ≠ k) (omap f l)) as IH'
    by (apply IH; intros x Hx; apply H; by right).
  assert (omap f (a :: l) = (a, e) :: omap f l) as -> by (simpl; by rewrite E).
  destruct (decide (a = k)) as [->|NE].
  - rewrite filter_cons_False by (intros ?; done).
    rewrite filter_cons_False by (simpl; intros ?; done). done.
  - rewrite filter_cons_True by done. rewrite filter_cons_True by done.
    rewrite <- IH'. simpl. by rewrite E.
Qed.

Lemma JsMap_delete_keys_filter k (m : list (string * loc)) :
  NoDup m.*1 → (JsMap.delete k m).*1 = filter (λ x, x ≠ k) m.*1.
Proof.
  induction m as [|[k' v'] m IH]; intros ND; [done|].
  change (((k', v') :: m).*1) with (k' :: m.*1) in *.
  apply NoDup_cons in ND as [Hk ND]. specialize (IH ND).
  simpl. case_decide; subst.
  - rewrite filter_cons_False by (intros ?; done). by rewrite filter_ne_absent.
  - rewrite filter_cons_True by done. rewrite <- IH. done.
Qed.

Lemma snapshot_entry_total st id :
  Inv st → scopes_allocated st → id ∈ trackedIds st →
  ∃ o xs, getValue id st = Some o ∧ arrs st !! scopes o = Some xs ∧
          snapshot_entry st id = Some (id, entry_of o xs).
Proof.
  intros I V Hid.
  destruct (Inv_getValue st id I Hid) as (_ & _ & o & _ & _ & _ & Ho & _).
  destruct (lookup_lt_is_Some_2 (arrs st) (scopes o)) as [xs Hxs]; [by apply (V id)|].
  exists o, xs. unfold snapshot_entry. rewrite Ho. simpl. by rewrite Hxs.
Qed.

Lemma snapshot_entry_eq st st' id :
  getValue id st' = getValue id st →
  (∀ o, getValue id st = Some o → arrs st' !! scopes o = arrs st !! scopes o) →
  snapshot_entry st' id = snapshot_entry st id.
Proof.
  intros Ev Ea. unfold snapshot_entry. rewrite Ev.
  destruct (getValue id st) as [o|]; [|done]. simpl. by rewrite (Ea o).
Qed.

Lemma snapshot_keys st : Inv st → scopes_allocated st → (snapshot st).*1 = trackedIds st.
Proof.
  intros I V. apply omap_keys. intros id Hid.
  destruct (snapshot_entry_total st id I V Hid) as (o & xs & _ & _ & ->). by eexists.
Qed.

Lemma passed_getValue sc st id : getValue id (passed sc st).2 = getValue id st.
Proof. rewrite !getValue_eq. by destruct sc. Qed.

Lemma scopes_allocated_passed sc st :
  scopes_allocated st → scopes_allocated (passed sc st).2.
Proof.
  intros V id o Ho. rewrite passed_getValue in Ho. specialize (V id o Ho).
  destruct sc; simpl; rewrite ?length_app; simpl; lia.
Qed.

Lemma snapshot_passed sc st : scopes_allocated st → snapshot (passed sc st).2 = snapshot st.
Proof.
  intros V. unfold snapshot, trackedIds. rewrite passed_clientNodeMap.
  apply omap_ext_in. intros id _. apply snapshot_entry_eq; [apply passed_getValue|].
  intros o Ho. specialize (V id o Ho). destruct sc; simpl; [|done]. by rewrite lookup_app_l.
Qed.

Lemma entry_of_updated rsn csn ts nk md o xs :
  entry_of (updated rsn csn ts nk md o) xs = entry_updated csn rsn ts nk md (entry_of o xs).
Proof. unfold updated, entry_updated, entry_of. by destruct (truthy md). Qed.

Lemma upsert_snapshot st id csn rsn ts ce sc nk md r st' :
  Inv st → scopes_allocated st →
  (∀ a, sc = Some a → a < length (arrs st)) →
  upsertClient id csn rsn ts ce sc nk md st = Some (r, st') →
  snapshot st'
  = if bool_decide (id ∈ (snapshot st).*1) then
      (λ row, if decide (row.1 = id)
              then (row.1, entry_updated csn rsn ts nk md row.2)
              else row) <$> snapshot st
    else snapshot st
         ++ [(id, mkEntry ce csn ts nk rsn
                    (match sc with Some a => default [] (arrs st !! a) | None => [] end)
                    md)].
Proof.
  intros I V Hsc E. rewrite snapshot_keys by done.
  destruct (upsertClient_Inv st id csn rsn ts ce sc nk md I) as (r1 & st1 & E1 & _ & Ea & H).
  assert (st1 = st') as -> by congruence. clear E1.
  assert (∀ l, l < length (arrs st) → arrs st' !! l = arrs st !! l) as Harr.
  { intros l Hl. rewrite Ea. by apply arrs_entered_lookup. }
  assert (∀ id', id' ≠ id → snapshot_entry st' id' = snapshot_entry st id') as Hoth.
  { intros id' NE.
    destruct (upsertClient_others _ _ _ _ _ _ _ _ _ _ _ I E id' NE) as (_ & _ & Hv).
    apply snapshot_entry_eq; [done|]. intros o Ho. apply Harr. by apply (V id'). }
  destruct (JsMap.get id (clientNodeMap st)) as [n|] eqn:Hg.
  - assert (id ∈ trackedIds st) as Hid.
    { apply list_elem_of_fmap. exists (id, n). split; [done|]. by apply JsMap_get_Some_elem. }
    rewrite bool_decide_eq_true_2 by done.
    assert (JsMap.has id (clientNodeMap st) = true) as Hhas
      by (apply JsMap_has_true; by eexists).
    rewrite Hhas in H. destruct H as (_ & Em & _ & o & Ho & Ho').
    unfold snapshot at 1. unfold trackedIds at 1. rewrite Em. fold (trackedIds st).
    apply omap_pointwise. intros id' Hid'.
    destruct (snapshot_entry_total st id' I V Hid') as (o' & xs & Hv & Hxs & Hs).
    rewrite Hs. simpl. destruct (decide (id' = id)) as [->|NE].
    + assert (o' = o) as -> by congruence.
      unfold snapshot_entry. rewrite Ho'. simpl.
      destruct (updated_fields rsn csn ts nk md o) as (_ & _ & _ & _ & _ & Hsc' & _).
      rewrite Hsc', Harr, Hxs by (by apply (V id)). simpl.
      by rewrite entry_of_updated.
    + by rewrite Hoth, Hs.
  - assert (id ∉ trackedIds st) as Hid by (by apply JsMap_get_None).
    rewrite bool_decide_eq_false_2 by done.
    destruct (upsert_new_spec st id csn rsn ts ce sc nk md I Hg)
      as (st1 & E1 & _ & Em & _).
    assert (st1 = st') as -> by congruence.
    assert (JsMap.has id (clientNodeMap st) = false) as Hhas by (by apply JsMap_has_false).
    rewrite Hhas in H. destruct H as (_ & _ & _ & Hv).
    unfold snapshot at 1. unfold trackedIds at 1. rewrite Em, fmap_app, omap_app.
    fold (trackedIds st). f_equal.
    + apply omap_ext_in. intros id' Hid'. apply Hoth. intros ->. done.
    + simpl. unfold snapshot_entry. rewrite Hv. simpl. rewrite Ea.
      destruct sc as [a|]; simpl.
      * destruct (lookup_lt_is_Some_2 (arrs st) a) as [xs Hxs]; [by apply Hsc|].
        by rewrite Hxs.
      * by rewrite lookup_app_r, Nat.sub_diag by done.
Qed.

Lemma remove_snapshot st id r st' :
  Inv st → scopes_allocated st → removeClient id st = Some (r, st') →
  snapshot st' = filter (λ row, row.1 ≠ id) (snapshot st).
Proof.
  intros I V E.
  assert (∀ x, x ∈ trackedIds st → ∃ e, snapshot_entry st x = Some (x, e)) as Htot.
  { intros x Hx. destruct (snapshot_entry_total st x I V Hx) as (o & xs & _ & _ & ->).
    by eexists. }
  unfold snapshot at 2. rewrite <- omap_filter_keys by done.
  destruct (JsMap.get id (clientNodeMap st)) as [n|] eqn:Hg.
  - destruct (remove_tracked_spec st id n I Hg) as (st1 & E1 & _ & Em & _ & Ea & _).
    assert (st1 = st') as -> by congruence.
    destruct (removeClient_others st id r st' I E) as (_ & Hoth).
    unfold snapshot, trackedIds. rewrite Em.
    rewrite JsMap_delete_keys_filter by apply (inv_keys _ I).
    apply omap_ext_in. intros id' Hid'. apply list_elem_of_filter in Hid' as [NE Hid'].
    destruct (Hoth id' NE) as (_ & _ & Hv).
    apply snapshot_entry_eq; [done|]. intros o _. by rewrite Ea.
  - rewrite remove_untracked_spec in E by done. injection E as _ <-.
    rewrite filter_ne_absent; [done|]. by apply JsMap_get_None.
Qed.

Lemma step_snapshot op st r st' :
  Inv st → scopes_allocated st → step op st = Some (r, st') →
  snapshot st' = table_step op (snapshot st).
Proof.
  intros I V E. destruct op as [id csn rsn ts ce sc nk md|id].
  - rewrite step_upsert_eq in E.
    assert (∀ a, (passed sc st).1 = Some a → a < length (arrs (passed sc st).2)) as Hsc.
    { intros a Ha. destruct sc; simpl in *; [|done].
      injection Ha as <-. rewrite length_app. simpl. lia. }
    rewrite (upsert_snapshot _ _ _ _ _ _ _ _ _ _ _ (Inv_passed sc st I)
               (scopes_allocated_passed sc st V) Hsc E).
    rewrite snapshot_passed by done. unfold table_step.
    destruct sc as [xs|]; simpl; [|done].
    by rewrite lookup_app_r, Nat.sub_diag by done.
  - by apply (remove_snapshot st id r).
Qed.

Lemma run_snapshot ops : ∀ st,
  Inv st → scopes_allocated st →
  ∃ st', run ops st = Some st' ∧ Inv st' ∧ scopes_allocated st' ∧
         snapshot st' = foldl (λ t op, table_step op t) (snapshot st) ops.
Proof.
  induction ops as [|op ops IH]; intros st I V; simpl.
  - by exists st.
  - destruct (step_Inv op st I) as (r & st1 & E1 & I1). rewrite E1.
    assert (scopes_allocated st1) as V1 by (by apply (step_scopes_allocated op st r)).
    destruct (IH st1 I1 V1) as (st' & E & I' & V' & Hs).
    exists st'. split; [done|]. split; [done|]. split; [done|].
    by rewrite Hs, (step_snapshot op st r st1).
Qed.

Lemma snapshot_refs st :
  Inv st → scopes_allocated st →
  (λ row, entry_referenceSequenceNumber row.2) <$> snapshot st = trackedRefs st.
Proof.
  intros I V. unfold snapshot, trackedRefs.
  generalize (λ id Hid, snapshot_entry_total st id I V Hid).
  induction (trackedIds st) as [|id ids IH]; intros H; [done|].
  destruct (H id) as (o & xs & Ho & _ & Hs); [by left|].
  simpl. rewrite Hs, Ho. simpl. f_equal. apply IH. intros x Hx. apply H. by right.
Qed.

(** X11. The manager behaves as a table of clients kept in insertion
    order. After any sequence of calls on a new manager, the tracked
    clients, read through [get] in the order [cloneValues] lists them, are
    the rows of [table_of]: an upsert of a tracked id rewrites four fields
    of its row (and the metadata when truthy) in place, an upsert of a new
    id appends a row, a removal drops the row. [count] is the number of
    rows, [has] tells whether an id has a row, and the minimum is the least
    reference sequence number of the rows, [-1] for the empty table. *)
Theorem manager_is_table (ops : list Op) :
  ∃ st, run ops init_state = Some st ∧
    snapshot st = table_of ops ∧
    result count st = Some (length (table_of ops)) ∧
    (∀ id, result (has id) st = Some (bool_decide (id ∈ (table_of ops).*1))) ∧
    result getMinimumSequenceNumber st
    = Some (match (λ row, entry_referenceSequenceNumber row.2) <$> table_of ops with
            | [] => (-1)%Z
            | r :: rs => foldr Z.min r rs
            end).
Proof.
  destruct (run_snapshot ops init_state Inv_init init_scopes_allocated)
    as (st & E & I & V & Hs).
  exists st. split; [done|]. change (snapshot init_state) with (@nil (string * Entry)) in Hs.
  fold (table_of ops) in Hs. rewrite <- Hs. repeat split.
  - rewrite count_result. f_equal.
    rewrite <- (length_fmap fst (snapshot st)), snapshot_keys by done.
    unfold trackedIds. by rewrite length_fmap.
  - intros id. rewrite has_result, snapshot_keys by done. f_equal.
    destruct (JsMap.has id (clientNodeMap st)) eqn:Hh; symmetry.
    + apply bool_decide_eq_true_2, has_trackedIds. by rewrite has_result, Hh.
    + apply bool_decide_eq_false_2. intros Hid. apply has_trackedIds in Hid.
      rewrite has_result, Hh in Hid. done.
  - rewrite snapshot_refs by done.
    pose proof (getMinimumSequenceNumber_Inv st I) as Hm.
    by destruct (trackedRefs st).
Qed.

(** * Further properties of the checkpoint manager *)

Section CheckpointManagerDelete.

Context {IDeliState IQueuedMessage IDocumentRepository ICheckpointRepository World : Type}.
Variables (tenantId documentId : string).
Variable documentRepository : IDocumentRepository.
Variable checkpointRepository : ICheckpointRepository.
Variable checkpointService : @ICheckpointService IDeliState World.

Let manager : @IDeliCheckpointManager IDeliState IQueuedMessage World :=
  createDeliCheckpointManagerFromCollection tenantId documentId documentRepository
    checkpointRepository checkpointService.

(** X12. The promise [deleteCheckpoint] returns is rejected exactly when the
    call of [removeCheckpointFromCollection] fails, by a throw or by
    returning a promise that is rejected, and then with the same error; it
    is fulfilled exactly when that call's promise is, and stays pending when
    that promise does. The world is left as the call leaves it. *)
Theorem deleteCheckpoint_propagates_failure
    (params : ICheckpointParams) (isLocal : bool) (w : World) :
  let underlying :=
    checkpointService (removeCheckpointFromCollection documentId tenantId "deli" isLocal) w in
  let run := deleteCheckpoint manager params isLocal w in
  rejection (outcome run) = failure underlying.1 ∧
  (∀ e, outcome run = Rejected e ↔
        underlying.1 = Throw e ∨ underlying.1 = Return (Rejected e)) ∧
  (∀ v, outcome run = Fulfilled v ↔ underlying.1 = Return (Fulfilled v)) ∧
  (outcome run = Pending ↔ underlying.1 = Return Pending) ∧
  after run = underlying.2.
Proof.
  unfold manager. simpl. unfold async, call.
  destruct (checkpointService _ w) as [[[v|e|]|e] w']; simpl;
    (split; [done|]); (split; [|split; [|split; [|done]]]);
    try intros x; split; intros H;
    first [ congruence
          | left; congruence
          | right; congruence
          | destruct H as [H|H]; congruence ].
Qed.

End CheckpointManagerDelete.
